(** * Email job-tracking pipeline: RPC channel, inference adapter,
      per-email state machine, registry and batch driver.

    Shallow embedding of
      - [WebLLMWorker]            (lib/webllm-worker.ts),
      - [EmailProcessingApp]      (lib/email-processor.ts),
      - [ApplicationStateManager] (lib/state-manager.ts),
      - [processEmailsWithAI]     (app/routes/dashboard.tsx).

    Conventions.  A JavaScript object used as a dictionary is a [gmap] over
    its own keys.  Asynchronous code is sequentialised in the order the
    awaits run.  What the outside world decides (the answer of the worker
    to a request, whether and where an IndexedDB transaction fails, the
    wall clock, the parse of a date header, the arrangement the engine's
    sort leaves when its comparator is not consistent, the cancellation
    flag) is a field of the record [Outside], over which the theorems
    quantify. *)

From stdpp Require Import gmap strings list fin_maps pretty.
From Stdlib Require Import ZArith Permutation Sorted.

Local Open Scope string_scope.
Local Open Scope Z_scope.
Local Open Scope list_scope.

(** ** JavaScript values that cross the worker boundary *)

(** A property of a parsed JSON record: missing, [null] or a string. *)
Inductive JsField :=
  | FUndefined
  | FNull
  | FStr (s : string).

(** The record the extraction prompt asks for. *)
Record JobData := {
  company_name : JsField;
  job_title : JsField;
  application_date : JsField;
  contact_email : JsField;
  job_id : JsField;
  location : JsField;
  salary_range : JsField
}.

(** [WorkerResponse.result] is typed [any]. *)
Inductive JsValue :=
  | VUndefined
  | VNull
  | VBool (b : bool)
  | VNum (n : Z)
  | VStr (s : string)
  | VObj (o : JobData).

#[global] Instance JsField_eq_dec : EqDecision JsField.
Proof. solve_decision. Defined.
#[global] Instance JobData_eq_dec : EqDecision JobData.
Proof. solve_decision. Defined.
#[global] Instance JsValue_eq_dec : EqDecision JsValue.
Proof. solve_decision. Defined.

(** Truthiness, as used by [if (x)], [!x] and [x || d]. *)
Definition str_truthy (s : string) : bool := negb (String.eqb s "").

Definition field_truthy (f : JsField) : bool :=
  match f with
  | FStr s => str_truthy s
  | _ => false
  end.

Definition truthy (v : JsValue) : bool :=
  match v with
  | VUndefined | VNull => false
  | VBool b => b
  | VNum n => negb (n =? 0)
  | VStr s => str_truthy s
  | VObj _ => true
  end.

(** [a === b] on the values above (objects are never the literal compared). *)
Definition strict_eq (a b : JsValue) : bool :=
  match a, b with
  | VObj _, _ | _, VObj _ => false
  | _, _ => bool_decide (a = b)
  end.

(** [`${f}`] *)
Definition field_to_string (f : JsField) : string :=
  match f with
  | FUndefined => "undefined"
  | FNull => "null"
  | FStr s => s
  end.

(** [f || d] for a string default [d] *)
Definition field_or (f : JsField) (d : string) : string :=
  match f with
  | FStr s => if str_truthy s then s else d
  | _ => d
  end.

(** [s || d] *)
Definition str_or (s d : string) : string := if str_truthy s then s else d.

Definition opt_str_or (s : option string) (d : string) : string :=
  match s with
  | Some s => str_or s d
  | None => d
  end.

(** [n || d] on numbers *)
Definition num_or (n d : Z) : Z := if n =? 0 then d else n.

(** ** The RPC channel: [WebLLMWorker.postMessage], [handleWorkerMessage],
       the 60 s timers and [rejectAllPending] *)

Module Channel.

(** One call of a promise's [res] or [rej]. *)
Inductive Settlement :=
  | Resolve (v : JsValue)
  | RejectError (msg : string)
  | RejectTimeout (messageId : string).

Record WorkerResponse := {
  r_id : string;
  r_result : JsValue;
  r_error : option string;
  r_progress : option (string * Z)
}.

(** Promises created by [postMessage] are numbered in creation order; the
    number also names the [setTimeout] handle captured by the wrapped
    [{res, rej}] pair stored for that promise. *)
Record State := {
  worker : bool;                        (* this.worker !== null *)
  pendingRequests : gmap string nat;    (* messageId -> promise whose wrapped handlers are stored *)
  timers : gmap nat string;             (* armed timeouts: promise -> messageId the callback deletes *)
  nextPromise : nat;
  settleLog : list (nat * Settlement);  (* every call of an original res / rej, in order *)
  outbox : list string;                 (* ids posted to the worker *)
  console : list string
}.

Definition initial : State :=
  {| worker := false; pendingRequests := ∅; timers := ∅; nextPromise := 0%nat;
     settleLog := []; outbox := []; console := [] |}.

Inductive Event :=
  | ECreateWorker                        (* this.worker = new Worker(..) *)
  | EPost (messageId : string)           (* this.postMessage({id: messageId, ..}) *)
  | EMessage (r : WorkerResponse)        (* worker.onmessage *)
  | ETimer (p : nat)                     (* the timeout callback of promise p is due *)
  | EWorkerError (msg : string)          (* worker.onerror *)
  | ETerminate.                          (* this.terminate() *)

Definition set_worker (b : bool) (st : State) : State :=
  {| worker := b; pendingRequests := pendingRequests st; timers := timers st;
     nextPromise := nextPromise st; settleLog := settleLog st;
     outbox := outbox st; console := console st |}.

Definition log (line : string) (st : State) : State :=
  {| worker := worker st; pendingRequests := pendingRequests st; timers := timers st;
     nextPromise := nextPromise st; settleLog := settleLog st;
     outbox := outbox st; console := console st ++ [line] |}.

(** [clearTimeout(timeout); original(..)] of the wrapped handlers of [p] *)
Definition settle_wrapped (p : nat) (s : Settlement) (st : State) : State :=
  {| worker := worker st; pendingRequests := pendingRequests st;
     timers := delete p (timers st);
     nextPromise := nextPromise st; settleLog := settleLog st ++ [(p, s)];
     outbox := outbox st; console := console st |}.

Definition postMessage (messageId : string) (st : State) : State :=
  let p := nextPromise st in
  if worker st then
    {| worker := true;
       pendingRequests := <[messageId := p]> (pendingRequests st);
       timers := <[p := messageId]> (timers st);
       nextPromise := S p; settleLog := settleLog st;
       outbox := outbox st ++ [messageId]; console := console st |}
  else
    {| worker := false; pendingRequests := pendingRequests st; timers := timers st;
       nextPromise := S p;
       settleLog := settleLog st ++ [(p, RejectError "Worker not initialized")];
       outbox := outbox st; console := console st |}.

Definition handleWorkerMessage (r : WorkerResponse) (st : State) : State :=
  match r_progress r with
  | Some (text, percent) =>
      log ("WebLLM Progress: " +:+ text +:+ " (" +:+ pretty percent +:+ "%)") st
  | None =>
      match pendingRequests st !! r_id r with
      | None => log ("Received response for unknown request ID: " +:+ r_id r) st
      | Some p =>
          let st' :=
            {| worker := worker st;
               pendingRequests := delete (r_id r) (pendingRequests st);
               timers := timers st; nextPromise := nextPromise st;
               settleLog := settleLog st; outbox := outbox st; console := console st |} in
          match r_error r with
          | Some e =>
              if str_truthy e then settle_wrapped p (RejectError e) st'
              else settle_wrapped p (Resolve (r_result r)) st'
          | None => settle_wrapped p (Resolve (r_result r)) st'
          end
      end
  end.

(** The settlement a response for a pending id produces: a truthy [error]
    rejects, otherwise [result] resolves. *)
Definition answerOf (r : WorkerResponse) : Settlement :=
  match r_error r with
  | Some e => if str_truthy e then RejectError e else Resolve (r_result r)
  | None => Resolve (r_result r)
  end.

(** The callback given to [setTimeout]; a cleared or spent timer never runs. *)
Definition timeoutFires (p : nat) (st : State) : State :=
  match timers st !! p with
  | None => st
  | Some messageId =>
      {| worker := worker st;
         pendingRequests := delete messageId (pendingRequests st);
         timers := delete p (timers st);
         nextPromise := nextPromise st;
         settleLog := settleLog st ++ [(p, RejectTimeout messageId)];
         outbox := outbox st; console := console st |}
  end.

(** [pendingRequests.forEach(({rej}) => rej(..))], then [clear()].  The
    entries are visited in the order of [map_to_list]; the [Map] of the
    code visits them in insertion order, which changes the order of the
    lines added to [settleLog] and nothing else. *)
Definition rejectAllPending (msg : string) (st : State) : State :=
  let entries := map_to_list (pendingRequests st) in
  {| worker := worker st;
     pendingRequests := ∅;
     timers := foldr (λ e t, delete e.2 t) (timers st) entries;
     nextPromise := nextPromise st;
     settleLog := settleLog st ++ ((λ e, (e.2, RejectError msg)) <$> entries);
     outbox := outbox st; console := console st |}.

(** [this.worker.postMessage(..)] without a pending entry *)
Definition post_raw (messageId : string) (st : State) : State :=
  {| worker := worker st; pendingRequests := pendingRequests st; timers := timers st;
     nextPromise := nextPromise st; settleLog := settleLog st;
     outbox := outbox st ++ [messageId]; console := console st |}.

Definition terminate (st : State) : State :=
  if worker st then
    log "WebLLM Worker terminated"
      (rejectAllPending "Worker terminated" (set_worker false (post_raw "terminate" st)))
  else st.

Definition step (st : State) (ev : Event) : State :=
  match ev with
  | ECreateWorker => set_worker true st
  | EPost messageId => postMessage messageId st
  | EMessage r => handleWorkerMessage r st
  | ETimer p => timeoutFires p st
  | EWorkerError msg =>
      rejectAllPending ("Worker error: " +:+ msg)
        (log ("WebLLM Worker error: " +:+ msg) st)
  | ETerminate => terminate st
  end.

Definition run (evs : list Event) : State := foldl step initial evs.

(** Number of calls of [postMessage] among the events. *)
Fixpoint postCount (evs : list Event) : nat :=
  match evs with
  | [] => 0%nat
  | EPost _ :: evs' => S (postCount evs')
  | _ :: evs' => postCount evs'
  end.

(** The 60 s of every request made so far have elapsed: the timeout
    callbacks of the promises below [n] are due, oldest first. *)
Definition timeouts (n : nat) : list Event := ETimer <$> seq 0 n.

(** Number of times the original [res] / [rej] of promise [p] were called. *)
Fixpoint settle_count (p : nat) (l : list (nat * Settlement)) : nat :=
  match l with
  | [] => 0%nat
  | (q, _) :: l' => ((if decide (q = p) then 1 else 0) + settle_count p l')%nat
  end.

Definition settled_times (p : nat) (st : State) : nat := settle_count p (settleLog st).

(** The pending table, the armed timers and the settle log agree. *)
Record Consistent (st : State) : Prop := {
  cons_pending : ∀ i p, pendingRequests st !! i = Some p → timers st !! p = Some i;
  cons_armed : ∀ p i, timers st !! p = Some i →
                 (p < nextPromise st)%nat ∧ settled_times p st = 0%nat;
  cons_spent : ∀ p, (p < nextPromise st)%nat → timers st !! p = None →
                 settled_times p st = 1%nat;
  cons_future : ∀ p, (nextPromise st ≤ p)%nat → settled_times p st = 0%nat
}.

End Channel.

(** ** What the outside world decides *)

Inductive MessageType :=
  | MInitialize | MClassify | MExtract | MAnalyze | MStatus | MTerminate.

(** A request posted to the worker.  [m_prompt] is the part of the prompt
    interpolated from the email (the fixed instruction text in front of it
    is a constant of each operation and is left out). *)
Record WorkerMessage := {
  m_type : MessageType;
  m_prompt : string
}.

(** How the promise returned by [postMessage] settles.  [Channel] shows that
    each promise settles once; a timeout and a worker error are rejections. *)
Inductive Settled :=
  | Resolved (result : JsValue)
  | Rejected (message : string).

Record Outside := {
  respond : nat → WorkerMessage → Settled;  (* settlement of the n-th posted request *)
  txFails : nat → bool;                     (* does the n-th IndexedDB transaction error *)
  txError : nat → string;                   (* message of that error *)
  txFailingPut : nat → nat;                 (* puts of a failing readwrite transaction n that
                                               completed before the failing one; not below the
                                               number of puts: they all succeed, the commit fails *)
  isoNow : nat → string;                    (* new Date().toISOString() during transaction n *)
  getTime : string → option Z;              (* new Date(s).getTime(); None is NaN (Invalid Date) *)
  sortRanks : list string → list Z;         (* the arrangement Array.prototype.sort leaves when the
                                               comparator is not consistent: a rank for each
                                               position, given the date headers as submitted *)
  nullInvokeMessage : string;               (* message of the TypeError for reading invoke of null *)
  aborted : nat → bool                      (* signal.aborted when batch iteration k starts *)
}.

(** A returned value or a thrown [Error] (a rejected promise of an async function). *)
Inductive Result (A : Type) :=
  | Ok (a : A)
  | Throw (message : string).
Arguments Ok {A} a.
Arguments Throw {A} message.

Definition is_ok {A} (r : Result A) : bool :=
  match r with Ok _ => true | Throw _ => false end.

Definition nl : string := String (Ascii.ascii_of_nat 10) "".

(** ** Inference adapter: [WebLLMWorker.classify], [extractJobData], [determineStatus] *)

Record WebLLMWorker := {
  w_worker : bool;              (* this.worker !== null *)
  isInitialized : bool;
  sent : list WorkerMessage     (* requests posted so far, oldest first *)
}.

Definition awaitPostMessage (O : Outside) (w : WebLLMWorker) (m : WorkerMessage)
  : Settled * WebLLMWorker :=
  if w_worker w then
    (respond O (length (sent w)) m,
     {| w_worker := true; isInitialized := isInitialized w; sent := sent w ++ [m] |})
  else (Rejected "Worker not initialized", w).

Definition classifyRequest (emailContent : string) : WorkerMessage :=
  {| m_type := MClassify; m_prompt := String.substring 0 2000 emailContent |}.

Definition extractRequest (emailContent : string) : WorkerMessage :=
  {| m_type := MExtract; m_prompt := String.substring 0 3000 emailContent |}.

Definition statusRequest (emailContent emailSubject : string) : WorkerMessage :=
  {| m_type := MStatus;
     m_prompt := "Subject: " +:+ emailSubject +:+ nl +:+ "Content: "
                 +:+ String.substring 0 2000 emailContent |}.

Definition classify (O : Outside) (w : WebLLMWorker) (emailContent : string)
  : Result bool * WebLLMWorker :=
  if negb (isInitialized w) then (Throw "WebLLM Worker not initialized", w)
  else
    let '(r, w') := awaitPostMessage O w (classifyRequest emailContent) in
    match r with
    | Resolved result =>
        (Ok (strict_eq result (VBool true) || strict_eq result (VStr "YES")), w')
    | Rejected _ => (Ok false, w')
    end.

Definition extractJobData (O : Outside) (w : WebLLMWorker) (emailContent : string)
  : Result JsValue * WebLLMWorker :=
  if negb (isInitialized w) then (Throw "WebLLM Worker not initialized", w)
  else
    let '(r, w') := awaitPostMessage O w (extractRequest emailContent) in
    match r with
    | Resolved result => (Ok result, w')
    | Rejected _ => (Ok VNull, w')
    end.

Definition validStatuses : list string :=
  ["applied"; "under_review"; "interview_scheduled"; "interview_completed";
   "offer_received"; "offer_accepted"; "rejected"; "withdrawn"; "pending"].

(** [validStatuses.includes(result) ? result : "pending"] *)
Definition validate_status (result : JsValue) : string :=
  match result with
  | VStr s => if bool_decide (s ∈ validStatuses) then s else "pending"
  | _ => "pending"
  end.

Definition determineStatus (O : Outside) (w : WebLLMWorker)
    (emailContent emailSubject : string) : Result string * WebLLMWorker :=
  if negb (isInitialized w) then (Throw "WebLLM Worker not initialized", w)
  else
    let '(r, w') := awaitPostMessage O w (statusRequest emailContent emailSubject) in
    match r with
    | Resolved result => (Ok (validate_status result), w')
    | Rejected _ => (Ok "pending", w')
    end.

(** ** Registry entries and the persistence collaborator *)

Record AppEntry := {
  a_job : JobData;                   (* the spread [...state.jobData] *)
  first_seen : string;
  status_history : list string;
  current_status : option string;
  email_count : Z;
  last_updated : option string
}.

Record ApplicationStateManager := {
  db : bool;                          (* this.db !== null *)
  store : gmap string AppEntry;       (* object store "knownApplications", by application_key *)
  txCount : nat                       (* transactions opened so far *)
}.

Definition ensureDB_message : string := "Database not initialized. Call initialize() first.".

Definition getKnownApplications (O : Outside) (sm : ApplicationStateManager)
  : Result (gmap string AppEntry) * ApplicationStateManager :=
  if negb (db sm) then (Throw ensureDB_message, sm)
  else
    let n := txCount sm in
    let sm' := {| db := true; store := store sm; txCount := S n |} in
    if txFails O n then (Throw (txError O n), sm') else (Ok (store sm), sm').

(** The [KnownApplication] record written by [store.put]. *)
Definition applicationRecord (now : string) (app : AppEntry) : AppEntry :=
  {| a_job :=
       {| company_name := FStr (field_or (company_name (a_job app)) "Unknown");
          job_title := FStr (field_or (job_title (a_job app)) "Unknown");
          application_date := FStr (field_or (application_date (a_job app)) "");
          contact_email := FStr (field_or (contact_email (a_job app)) "");
          job_id := FStr (field_or (job_id (a_job app)) "");
          location := FStr (field_or (location (a_job app)) "");
          salary_range := FStr (field_or (salary_range (a_job app)) "") |};
     first_seen := str_or (first_seen app) now;
     status_history := status_history app;
     current_status := Some (opt_str_or (current_status app) "applied");
     email_count := num_or (email_count app) 1;
     last_updated := Some (opt_str_or (last_updated app) now) |}.

(** A transaction commits all its puts or, on error, none.  The promise is
    rejected by [transaction.onerror], which an error of a put reaches only
    after that put's [req.onerror] has called [checkComplete]: when the
    failing put is the last one to complete, [res] has run by then and the
    rejection has no effect.  When all puts succeed and the commit fails,
    only an abort event follows and the promise stays resolved. *)
Definition updateKnownApplications (O : Outside) (sm : ApplicationStateManager)
    (knownApplications : gmap string AppEntry) : Result unit * ApplicationStateManager :=
  if negb (db sm) then (Throw ensureDB_message, sm)
  else
    let n := txCount sm in
    if bool_decide (size knownApplications = 0%nat) then
      (Ok (), {| db := true; store := store sm; txCount := S n |})
    else if txFails O n then
      if (S (txFailingPut O n) <? size knownApplications)%nat then
        (Throw (txError O n), {| db := true; store := store sm; txCount := S n |})
      else (Ok (), {| db := true; store := store sm; txCount := S n |})
    else
      (Ok (), {| db := true;
                 store := (applicationRecord (isoNow O n) <$> knownApplications) ∪ store sm;
                 txCount := S n |}).

(** ** Pipeline state machine: the nodes of [EmailProcessingApp] *)

Record EmailData := {
  id : string;
  subject : string;
  from : string;
  date : string;
  body : string
}.

(** [knownApplications] and [errors] are set by the only caller
    ([processEmailsChronologically]), so they are not optional here;
    [jobData] starts as [VUndefined]. *)
Record ApplicationState := {
  email : EmailData;
  isJobRelated : option bool;
  jobData : JsValue;
  isFirstInstance : option bool;
  applicationStatus : option string;
  knownApplications : gmap string AppEntry;
  processingStage : string;
  errors : list string
}.

Definition initialState (e : EmailData) (known : gmap string AppEntry) : ApplicationState :=
  {| email := e; isJobRelated := None; jobData := VUndefined; isFirstInstance := None;
     applicationStatus := None; knownApplications := known;
     processingStage := "classify"; errors := [] |}.

(** The text each node builds from the email.  [substring] counts UTF-16
    code units where [String.substring] counts bytes: the two agree on
    ASCII text. *)
Definition classifyContent (e : EmailData) : string :=
  "Subject: " +:+ subject e +:+ nl +:+ "From: " +:+ from e
  +:+ nl +:+ "Content: " +:+ String.substring 0 1000 (body e).

Definition extractContent (e : EmailData) : string :=
  "Subject: " +:+ subject e +:+ nl +:+ "From: " +:+ from e
  +:+ nl +:+ "Content: " +:+ body e.

Definition statusContent (e : EmailData) : string :=
  "Subject: " +:+ subject e +:+ nl +:+ "Content: "
  +:+ String.substring 0 1000 (body e).

Definition classifyEmailNode (O : Outside) (state : ApplicationState) (w : WebLLMWorker)
  : ApplicationState * WebLLMWorker :=
  match classify O w (classifyContent (email state)) with
  | (Ok related, w') =>
      ({| email := email state; isJobRelated := Some related; jobData := jobData state;
          isFirstInstance := isFirstInstance state;
          applicationStatus := applicationStatus state;
          knownApplications := knownApplications state;
          processingStage := if related then "extractJobData" else "finalizeResult";
          errors := errors state |}, w')
  | (Throw message, w') =>
      ({| email := email state; isJobRelated := Some false; jobData := jobData state;
          isFirstInstance := isFirstInstance state;
          applicationStatus := applicationStatus state;
          knownApplications := knownApplications state;
          processingStage := "finalizeResult";
          errors := errors state ++ ["Classification failed: " +:+ message] |}, w')
  end.

Definition extractJobDataNode (O : Outside) (state : ApplicationState) (w : WebLLMWorker)
  : ApplicationState * WebLLMWorker :=
  match extractJobData O w (extractContent (email state)) with
  | (Ok data, w') =>
      ({| email := email state; isJobRelated := isJobRelated state; jobData := data;
          isFirstInstance := isFirstInstance state;
          applicationStatus := applicationStatus state;
          knownApplications := knownApplications state;
          processingStage := "checkFirstInstance";
          errors := errors state |}, w')
  | (Throw message, w') =>
      ({| email := email state; isJobRelated := isJobRelated state; jobData := VNull;
          isFirstInstance := isFirstInstance state;
          applicationStatus := applicationStatus state;
          knownApplications := knownApplications state;
          processingStage := "checkFirstInstance";
          errors := errors state ++ ["Job data extraction failed: " +:+ message] |}, w')
  end.

Definition noJobData : JobData :=
  {| company_name := FUndefined; job_title := FUndefined; application_date := FUndefined;
     contact_email := FUndefined; job_id := FUndefined; location := FUndefined;
     salary_range := FUndefined |}.

(** Property reads on [state.jobData]: a primitive has none of the fields. *)
Definition fields_of (v : JsValue) : JobData :=
  match v with
  | VObj o => o
  | _ => noJobData
  end.

(** [`${jobData.company_name}_${jobData.job_title || 'unknown'}`] *)
Definition appKey (jd : JobData) : string :=
  field_to_string (company_name jd) +:+ "_" +:+ field_or (job_title jd) "unknown".

Definition newEntry (jd : JobData) (e : EmailData) : AppEntry :=
  {| a_job := jd; first_seen := date e; status_history := ["applied"];
     current_status := None; email_count := 1; last_updated := None |}.

Definition countEmail (a : AppEntry) : AppEntry :=
  {| a_job := a_job a; first_seen := first_seen a; status_history := status_history a;
     current_status := current_status a;
     email_count := num_or (email_count a) 0 + 1;
     last_updated := last_updated a |}.

Definition with_first (state : ApplicationState) (first : bool)
    (known : gmap string AppEntry) : ApplicationState :=
  {| email := email state; isJobRelated := isJobRelated state; jobData := jobData state;
     isFirstInstance := Some first;
     applicationStatus := applicationStatus state;
     knownApplications := known;
     processingStage := "determineStatus";
     errors := errors state |}.

(** The property names a plain object inherits from [Object.prototype]:
    [key in knownApps] is true for them although the registry has no entry
    of its own under them. *)
Definition objectPrototypeKeys : list string :=
  ["constructor"; "__defineGetter__"; "__defineSetter__"; "hasOwnProperty";
   "__lookupGetter__"; "__lookupSetter__"; "isPrototypeOf"; "propertyIsEnumerable";
   "toString"; "valueOf"; "__proto__"; "toLocaleString"].

(** The fields the nodes write on [knownApps[appKey]].  Under the key
    __proto__ that object is [Object.prototype] itself, and these names
    are inherited by every object from then on; the model takes
    [Object.prototype] as the engine provides it and does not follow this. *)
Definition writtenFields : list string := ["email_count"; "status_history"; "current_status"].

(** Every name a registry object can come to inherit in this program. *)
Definition inheritableKeys : list string := objectPrototypeKeys ++ writtenFields.

(** [appKey in knownApps] *)
Definition hasKey (knownApps : gmap string AppEntry) (key : string) : bool :=
  bool_decide (is_Some (knownApps !! key)) || bool_decide (key ∈ objectPrototypeKeys).

(** The registry is the map of the own entries of [knownApps].  For a key
    that is only inherited, [knownApps[appKey]] is [Object.prototype] or one
    of its functions: the count is written on that object and the registry
    gets no entry.  The [catch] of this node guards code that does not throw
    on these values, so it has no counterpart. *)
Definition checkFirstInstanceNode (state : ApplicationState) : ApplicationState :=
  if negb (truthy (jobData state))
     || negb (field_truthy (company_name (fields_of (jobData state))))
  then with_first state false (knownApplications state)
  else
    let key := appKey (fields_of (jobData state)) in
    let knownApps := knownApplications state in
    let isFirstInstance := negb (hasKey knownApps key) in
    if isFirstInstance then
      with_first state true
        (<[key := newEntry (fields_of (jobData state)) (email state)]> knownApps)
    else
      match knownApps !! key with
      | Some a => with_first state false (<[key := countEmail a]> knownApps)
      | None => with_first state false knownApps
      end.

Definition pushStatus (status : string) (a : AppEntry) : AppEntry :=
  {| a_job := a_job a; first_seen := first_seen a;
     status_history := status_history a ++ [status];
     current_status := Some status;
     email_count := email_count a;
     last_updated := last_updated a |}.

(** The in-place update of the history inside [determineStatusNode] *)
Definition recordStatus (data : JsValue) (status : string)
    (known : gmap string AppEntry) : gmap string AppEntry :=
  if truthy data then
    let key := appKey (fields_of data) in
    match known !! key with
    | Some a => <[key := pushStatus status a]> known
    | None => known
    end
  else known.

Definition determineStatusNode (O : Outside) (state : ApplicationState) (w : WebLLMWorker)
  : ApplicationState * WebLLMWorker :=
  match determineStatus O w (statusContent (email state)) (subject (email state)) with
  | (Ok status, w') =>
      ({| email := email state; isJobRelated := isJobRelated state;
          jobData := jobData state; isFirstInstance := isFirstInstance state;
          applicationStatus := Some status;
          knownApplications := recordStatus (jobData state) status (knownApplications state);
          processingStage := "finalizeResult";
          errors := errors state |}, w')
  | (Throw message, w') =>
      ({| email := email state; isJobRelated := isJobRelated state;
          jobData := jobData state; isFirstInstance := isFirstInstance state;
          applicationStatus := Some "unknown";
          knownApplications := knownApplications state;
          processingStage := "finalizeResult";
          errors := errors state ++ ["Status determination failed: " +:+ message] |}, w')
  end.

Definition finalizeResultNode (O : Outside) (state : ApplicationState)
    (sm : ApplicationStateManager) : Result ApplicationState * ApplicationStateManager :=
  match updateKnownApplications O sm (knownApplications state) with
  | (Ok _, sm') => (Ok state, sm')
  | (Throw message, sm') => (Throw message, sm')
  end.

(** What the processor holds between emails. *)
Record Runtime := {
  llm : WebLLMWorker;
  manager : ApplicationStateManager
}.

(** The state reached just before [finalizeResult]: the compiled graph
    START -> classifyEmail -> (isJobRelated ? extractJobData ->
    checkFirstInstance -> determineStatus : -) -> finalizeResult. *)
Definition runStages (O : Outside) (state : ApplicationState) (w : WebLLMWorker)
  : ApplicationState * WebLLMWorker :=
  let '(s1, w1) := classifyEmailNode O state w in
  match isJobRelated s1 with
  | Some true =>
      let '(s2, w2) := extractJobDataNode O s1 w1 in
      determineStatusNode O (checkFirstInstanceNode s2) w2
  | _ => (s1, w1)
  end.

(** [this.processingGraph.invoke].  [initialize] assigns [processingGraph]
    right after [webllmWorker.initialize()] has resolved, and nothing resets
    either of them afterwards ([terminate] has no caller): the graph exists
    exactly when the worker is initialized, and without it the call is a
    TypeError.  The registry object is shared by reference, so what the
    nodes wrote to it is returned also when the graph throws. *)
Definition invoke (O : Outside) (state : ApplicationState) (rt : Runtime)
  : Result ApplicationState * gmap string AppEntry * Runtime :=
  if isInitialized (llm rt) then
    let '(s, w) := runStages O state (llm rt) in
    let '(r, sm) := finalizeResultNode O s (manager rt) in
    (r, knownApplications s, {| llm := w; manager := sm |})
  else (Throw (nullInvokeMessage O), knownApplications state, rt).

(** ** Driver of one batch: [EmailProcessingApp.processEmailsChronologically] *)

Record ProcessingResult := {
  emailId : string;
  r_isJobRelated : bool;
  r_jobData : JsValue;
  r_isFirstInstance : bool;
  r_applicationStatus : string;
  processingErrors : list string
}.

Definition resultOf (e : EmailData) (finalState : ApplicationState) : ProcessingResult :=
  {| emailId := id e;
     r_isJobRelated := default false (isJobRelated finalState);
     r_jobData := if truthy (jobData finalState) then jobData finalState else VNull;
     r_isFirstInstance := default false (isFirstInstance finalState);
     r_applicationStatus := opt_str_or (applicationStatus finalState) "unknown";
     processingErrors := errors finalState |}.

Definition faultResult (e : EmailData) (message : string) : ProcessingResult :=
  {| emailId := id e; r_isJobRelated := false; r_jobData := VNull;
     r_isFirstInstance := false; r_applicationStatus := "error";
     processingErrors := [message] |}.

(** The comparator [(a, b) => new Date(a.date).getTime() - new Date(b.date).getTime()]
    as [sort] reads it: a NaN difference (a date that does not parse)
    counts as +0. *)
Definition compareDates (O : Outside) (a b : EmailData) : Z :=
  match getTime O (date a), getTime O (date b) with
  | Some ta, Some tb => ta - tb
  | _, _ => 0
  end.

Fixpoint insertByDate (O : Outside) (e : EmailData) (l : list EmailData) : list EmailData :=
  match l with
  | [] => [e]
  | x :: l' =>
      if compareDates O e x <=? 0 then e :: x :: l'
      else x :: insertByDate O e l'
  end.

Definition datesParse (O : Outside) (emails : list EmailData) : bool :=
  forallb (λ e, bool_decide (is_Some (getTime O (date e)))) emails.

Definition datesCompareEqual (O : Outside) (emails : list EmailData) : bool :=
  forallb (λ a, forallb (λ b, bool_decide (compareDates O a b = 0)) emails) emails.

(** The comparator is consistent on [emails] when every date parses, or
    when all of them compare equal (an unparsed date compares equal to
    every other, so the parsed ones must then agree). *)
Definition consistentDates (O : Outside) (emails : list EmailData) : bool :=
  datesParse O emails || datesCompareEqual O emails.

Fixpoint insertByRank (e : Z * EmailData) (l : list (Z * EmailData))
  : list (Z * EmailData) :=
  match l with
  | [] => [e]
  | x :: l' => if e.1 - x.1 <=? 0 then e :: x :: l' else x :: insertByRank e l'
  end.

(** The arrangement of the engine, read from the ranks it gives to the
    positions (a missing rank reads 0). *)
Definition engineSort (O : Outside) (emails : list EmailData) : list EmailData :=
  let ranks := sortRanks O (date <$> emails) in
  (foldr insertByRank [] (imap (λ i e, (nth i ranks 0, e)) emails)).*2.

(** [emails.sort(..)] with that comparator.  [Array.prototype.sort] is
    stable, and for a consistent comparator its result is determined: the
    stable ascending arrangement, computed here by insertion.  Otherwise the
    order is implementation-defined; the result is still a rearrangement of
    the emails. *)
Definition sortByDate (O : Outside) (emails : list EmailData) : list EmailData :=
  if consistentDates O emails then foldr (insertByDate O) [] emails
  else engineSort O emails.

(** Body of the [for (const email of sortedEmails)] loop, with its try / catch. *)
Definition processEmail (O : Outside) (e : EmailData)
    (known : gmap string AppEntry) (rt : Runtime)
  : ProcessingResult * gmap string AppEntry * Runtime :=
  match invoke O (initialState e known) rt with
  | (Ok finalState, known', rt') =>
      match updateKnownApplications O (manager rt') (knownApplications finalState) with
      | (Ok _, sm) => (resultOf e finalState, known', {| llm := llm rt'; manager := sm |})
      | (Throw message, sm) =>
          (faultResult e message, known', {| llm := llm rt'; manager := sm |})
      end
  | (Throw message, known', rt') => (faultResult e message, known', rt')
  end.

Fixpoint processLoop (O : Outside) (sortedEmails : list EmailData)
    (known : gmap string AppEntry) (rt : Runtime) (results : list ProcessingResult)
  : list ProcessingResult * gmap string AppEntry * Runtime :=
  match sortedEmails with
  | [] => (results, known, rt)
  | e :: rest =>
      let '(r, known', rt') := processEmail O e known rt in
      processLoop O rest known' rt' (results ++ [r])
  end.

(** The whole method, also exposing the in-memory registry it ends with. *)
Definition runChronologically (O : Outside) (emails : list EmailData) (rt : Runtime)
  : Result (list ProcessingResult * gmap string AppEntry) * Runtime :=
  match getKnownApplications O (manager rt) with
  | (Throw message, sm) => (Throw message, {| llm := llm rt; manager := sm |})
  | (Ok known, sm) =>
      let '(results, known', rt') :=
        processLoop O (sortByDate O emails) known {| llm := llm rt; manager := sm |} [] in
      (Ok (results, known'), rt')
  end.

Definition processEmailsChronologically (O : Outside) (emails : list EmailData)
    (rt : Runtime) : Result (list ProcessingResult) * Runtime :=
  match runChronologically O emails rt with
  | (Ok (results, _), rt') => (Ok results, rt')
  | (Throw message, rt') => (Throw message, rt')
  end.

(** ** Batch orchestrator: [processEmailsWithAI] of the dashboard *)

Record ProcessingProgress := {
  totalEmails : nat;
  processedEmails : nat;
  currentBatch : nat;
  totalBatches : nat;
  currentStatus : string;
  p_results : list ProcessingResult;
  p_errors : list string
}.

Definition WEBLLM_BATCH_SIZE : nat := 5.

(** [Math.ceil(n / size)] *)
Definition ceilDiv (n size : nat) : nat := ((n + (size - 1)) / size)%nat.

Record Orchestrator := {
  runtime : Runtime;                    (* state behind emailProcessorRef.current *)
  progress : ProcessingProgress;        (* the React progress state *)
  results : list ProcessingResult       (* the local accumulator *)
}.

(** One iteration of the [for (let i = 0; i < emails.length; i += size)]
    loop after its cancellation check; iteration [k] has [i = size * k].
    The [catch] re-throws an error named AbortError.  The errors of this
    model are messages and none of them has that name: a registry load
    that IndexedDB rejects with an AbortError is not described here. *)
Definition batchBody (O : Outside) (emails : list EmailData) (total k : nat)
    (o : Orchestrator) : Orchestrator :=
  let batch := take WEBLLM_BATCH_SIZE (drop (WEBLLM_BATCH_SIZE * k) emails) in
  let current := S k in
  let p := progress o in
  let status := "AI processing batch " +:+ pretty current +:+ "/" +:+ pretty total +:+ "..." in
  match processEmailsChronologically O batch (runtime o) with
  | (Ok batchResults, rt') =>
      let results' := results o ++ batchResults in
      {| runtime := rt';
         progress :=
           {| totalEmails := totalEmails p; processedEmails := length results';
              currentBatch := current; totalBatches := totalBatches p;
              currentStatus := status; p_results := results'; p_errors := p_errors p |};
         results := results' |}
  | (Throw message, rt') =>
      {| runtime := rt';
         progress :=
           {| totalEmails := totalEmails p; processedEmails := processedEmails p;
              currentBatch := current; totalBatches := totalBatches p;
              currentStatus := status; p_results := p_results p;
              p_errors := p_errors p ++
                ["AI processing batch " +:+ pretty current +:+ " failed: " +:+ message] |};
         results := results o |}
  end.

Fixpoint batchLoop (O : Outside) (emails : list EmailData) (total : nat)
    (ks : list nat) (o : Orchestrator) : Result (list ProcessingResult) * Orchestrator :=
  match ks with
  | [] => (Ok (results o), o)
  | k :: ks' =>
      if aborted O k then (Throw "Operation cancelled", o)
      else batchLoop O emails total ks' (batchBody O emails total k o)
  end.

(** [processor] is [emailProcessorRef.current]; [p] the progress state on entry. *)
Definition processEmailsWithAI (O : Outside) (emails : list EmailData)
    (processor : option Runtime) (p : ProcessingProgress)
  : Result (list ProcessingResult) * option Orchestrator :=
  match processor with
  | None => (Throw "Email processor not initialized", None)
  | Some rt =>
      let total := ceilDiv (length emails) WEBLLM_BATCH_SIZE in
      let p0 :=
        {| totalEmails := totalEmails p; processedEmails := processedEmails p;
           currentBatch := 0%nat; totalBatches := total;
           currentStatus := "Processing emails with AI...";
           p_results := p_results p; p_errors := p_errors p |} in
      let '(r, o) := batchLoop O emails total (seq 0 total)
                       {| runtime := rt; progress := p0; results := [] |} in
      (r, Some o)
  end.

(** Progress state installed by [handleRetrieveAndProcessEmails] before a run. *)
Definition freshProgress : ProcessingProgress :=
  {| totalEmails := 0%nat; processedEmails := 0%nat; currentBatch := 0%nat;
     totalBatches := 0%nat; currentStatus := "Starting...";
     p_results := []; p_errors := [] |}.

(** ** Concrete worlds used to run the model *)

Definition digitValue (c : Ascii.ascii) : option Z :=
  let n := Z.of_nat (Ascii.nat_of_ascii c) in
  if (48 <=? n) && (n <=? 57) then Some (n - 48) else None.

(** Reads the digits of an ISO date as one number: 2024-01-15 gives 20240115,
    which orders ISO dates as [Date.getTime] does. *)
Fixpoint isoNumber (acc : Z) (s : string) : Z :=
  match s with
  | EmptyString => acc
  | String c s' =>
      match digitValue c with
      | Some d => isoNumber (10 * acc + d) s'
      | None => isoNumber acc s'
      end
  end.

(** An empty date header is an Invalid Date. *)
Definition isoTime (s : string) : option Z :=
  if str_truthy s then Some (isoNumber 0 s) else None.

(** The TypeError of V8 for [this.processingGraph.invoke] on [null]. *)
Definition v8NullInvoke : string := "Cannot read properties of null (reading 'invoke')".

(** No transaction fails; a list the comparator is not consistent on is
    left as submitted. *)
Definition quietOutside (answer : nat → WorkerMessage → Settled) (stop : nat → bool) : Outside :=
  {| respond := answer; txFails := λ _, false; txError := λ _, "";
     txFailingPut := λ _, 0%nat;
     isoNow := λ _, "2024-02-01T00:00:00.000Z"; getTime := isoTime;
     sortRanks := λ _, []; nullInvokeMessage := v8NullInvoke; aborted := stop |}.

Definition readyWorker : WebLLMWorker :=
  {| w_worker := true; isInitialized := true; sent := [] |}.

Definition emptyManager : ApplicationStateManager :=
  {| db := true; store := ∅; txCount := 0%nat |}.

Definition readyRuntime : Runtime := {| llm := readyWorker; manager := emptyManager |}.

Definition mail (i d : string) : EmailData :=
  {| id := i; subject := "Your application"; from := "jobs@acme.example"; date := d;
     body := "Thank you for applying." |}.

Definition job (company title : string) : JobData :=
  {| company_name := FStr company; job_title := FStr title;
     application_date := FUndefined; contact_email := FUndefined; job_id := FUndefined;
     location := FUndefined; salary_range := FUndefined |}.

(** The Acme / Engineer scenario: both emails are classified as job mail and
    extracted as Acme / Engineer; the first status answer is applied, the
    second interview_scheduled. *)
Definition acmeAnswers (n : nat) (m : WorkerMessage) : Settled :=
  match m_type m with
  | MClassify => Resolved (VBool true)
  | MExtract => Resolved (VObj (job "Acme" "Engineer"))
  | MStatus =>
      if (n <? 3)%nat then Resolved (VStr "applied")
      else Resolved (VStr "interview_scheduled")
  | _ => Resolved VUndefined
  end.

Definition acmeWorld : Outside := quietOutside acmeAnswers (λ _, false).

Definition acmeEmails : list EmailData :=
  [mail "m1" "2024-01-01"; mail "m2" "2024-01-15"].

(** States used to run single nodes. *)
Definition extractedState (e : EmailData) (data : JsValue)
    (known : gmap string AppEntry) : ApplicationState :=
  {| email := e; isJobRelated := Some true; jobData := data; isFirstInstance := None;
     applicationStatus := None; knownApplications := known;
     processingStage := "checkFirstInstance"; errors := [] |}.

Definition timeoutAnswers (n : nat) (m : WorkerMessage) : Settled :=
  Rejected "Request timed out".

Definition silentWorld : Outside := quietOutside timeoutAnswers (λ _, false).

Definition acmeFirst : ApplicationState :=
  extractedState (mail "m1" "2024-01-01") (VObj (job "Acme" "Engineer")) ∅.

(** A status request that did not produce a status of the enumeration:
    rejected (timeout, worker error), or resolved with anything else. *)
Definition statusAnswerFailed (r : Settled) : bool :=
  match r with
  | Rejected _ => true
  | Resolved (VStr s) => negb (bool_decide (s ∈ validStatuses))
  | Resolved _ => true
  end.

Definition statusRequestOf (state : ApplicationState) : WorkerMessage :=
  statusRequest (statusContent (email state)) (subject (email state)).

(** The first Acme email after CheckFirstInstance: its entry exists with
    history [applied]. *)
Definition acmeChecked : ApplicationState := checkFirstInstanceNode acmeFirst.

(** A classify request that did not produce a yes: rejected (timeout,
    worker error), or resolved with anything but [true] or the string YES. *)
Definition classifyAnswerFailed (r : Settled) : bool :=
  match r with
  | Rejected _ => true
  | Resolved v => negb (strict_eq v (VBool true) || strict_eq v (VStr "YES"))
  end.

Definition classifyRequestOf (state : ApplicationState) : WorkerMessage :=
  classifyRequest (classifyContent (email state)).

(** The record of the first Acme email alone, run when every request times out. *)
Definition timedOutResult : ProcessingResult :=
  (processEmail silentWorld (mail "m1" "2024-01-01") ∅ readyRuntime).1.1.

(** The Acme scenario, run. *)
Definition acmeResults : list ProcessingResult :=
  match (runChronologically acmeWorld acmeEmails readyRuntime).1 with
  | Ok (results, _) => results
  | Throw _ => []
  end.

Definition acmeRegistry : gmap string AppEntry :=
  match (runChronologically acmeWorld acmeEmails readyRuntime).1 with
  | Ok (_, registry) => registry
  | Throw _ => ∅
  end.

(** [a] is not later than [b] by the parsed date. *)
Definition notLater (O : Outside) (a b : EmailData) : Prop :=
  compareDates O a b ≤ 0.

(** The two Acme emails submitted latest first. *)
Definition acmeEmailsReversed : list EmailData :=
  [mail "m2" "2024-01-15"; mail "m1" "2024-01-01"].

Definition reversedResults : list ProcessingResult :=
  match (runChronologically acmeWorld acmeEmailsReversed readyRuntime).1 with
  | Ok (results, _) => results
  | Throw _ => []
  end.

Definition reversedRegistry : gmap string AppEntry :=
  match (runChronologically acmeWorld acmeEmailsReversed readyRuntime).1 with
  | Ok (_, registry) => registry
  | Throw _ => ∅
  end.


(** State of the orchestrator after the iterations [ks] have run in full. *)
Definition afterBatches (O : Outside) (emails : list EmailData) (total : nat)
    (ks : list nat) (o : Orchestrator) : Orchestrator :=
  foldl (λ o k, batchBody O emails total k o) o ks.

(** State on entry of the loop of [processEmailsWithAI]. *)
Definition loopEntry (emails : list EmailData) (rt : Runtime) (p : ProcessingProgress)
  : Orchestrator :=
  {| runtime := rt;
     progress :=
       {| totalEmails := totalEmails p; processedEmails := processedEmails p;
          currentBatch := 0%nat;
          totalBatches := ceilDiv (length emails) WEBLLM_BATCH_SIZE;
          currentStatus := "Processing emails with AI...";
          p_results := p_results p; p_errors := p_errors p |};
     results := [] |}.


Definition sixEmails : list EmailData :=
  [mail "m1" "2024-01-01"; mail "m2" "2024-01-02"; mail "m3" "2024-01-03";
   mail "m4" "2024-01-04"; mail "m5" "2024-01-05"; mail "m6" "2024-01-06"].



(** Two requests posted under one id; the worker answers both; the timer of
    the first request is still due. *)
Definition yesResponse (i : string) : Channel.WorkerResponse :=
  {| Channel.r_id := i; Channel.r_result := VBool true;
     Channel.r_error := None; Channel.r_progress := None |}.

Definition collidingEvents : list Channel.Event :=
  [Channel.ECreateWorker; Channel.EPost "classify_1700000000000";
   Channel.EPost "classify_1700000000000";
   Channel.EMessage (yesResponse "classify_1700000000000");
   Channel.EMessage (yesResponse "classify_1700000000000");
   Channel.ETimer 0%nat; Channel.ETimer 1%nat].

(** The case normalisation the specification attributes to the key (ASCII
    lower-casing).  The code has no such step; it is used only to say that
    two names differ in letter case alone. *)
Definition lowerAscii (c : Ascii.ascii) : Ascii.ascii :=
  let n := Ascii.nat_of_ascii c in
  if ((65 <=? n) && (n <=? 90))%nat then Ascii.ascii_of_nat (n + 32) else c.

Fixpoint caseNormalized (s : string) : string :=
  match s with
  | EmptyString => EmptyString
  | String c s' => String (lowerAscii c) (caseNormalized s')
  end.

(** A second Acme email whose extracted company name is written in capitals. *)
Definition acmeCapitals : ApplicationState :=
  extractedState (mail "m2" "2024-01-15") (VObj (job "ACME" "Engineer"))
    (knownApplications
       (determineStatusNode acmeWorld (checkFirstInstanceNode acmeFirst) readyWorker).1).

(** ** The worker's side of the boundary: [processPrompt] in [getWorkerCode]

    Only the classify and status branches are embedded (the extract branch
    runs a regular expression and [JSON.parse]).  [content] is the trimmed
    reply of the engine.  [String.prototype.toUpperCase] and [toLowerCase]
    are parameters. *)

(** [s.includes(sub)] *)
Fixpoint includes (sub s : string) : bool :=
  String.prefix sub s ||
  match s with
  | EmptyString => false
  | String _ s' => includes sub s'
  end.

Definition workerValidStatuses : list string :=
  ["applied"; "under_review"; "interview_scheduled"; "interview_completed";
   "offer_received"; "offer_accepted"; "rejected"; "withdraw"; "pending"].

Section WorkerCode.
Variables (toUpperCase toLowerCase : string → string).

(** [case 'classify'] *)
Definition workerClassify (content : string) : JsValue :=
  VBool (includes "YES" (toUpperCase content)).

(** [case 'status'] *)
Definition workerStatus (content : string) : JsValue :=
  let status := toLowerCase content in
  let foundStatus := List.find (λ s, includes s status) workerValidStatuses in
  VStr (opt_str_or foundStatus "pending").

End WorkerCode.

(** ** More of [ApplicationStateManager] *)

Definition close (sm : ApplicationStateManager) : ApplicationStateManager :=
  if db sm then {| db := false; store := store sm; txCount := txCount sm |} else sm.

(** ** Relations used to state what the pipeline keeps *)

(** Every entry of [known] is still in [known'], with the same job record,
    first_seen and last_updated, a count that did not go down and a history
    that only grew at its end. *)
Definition registryGrows (known known' : gmap string AppEntry) : Prop :=
  ∀ k a, known !! k = Some a →
    ∃ a', known' !! k = Some a'
      ∧ a_job a' = a_job a
      ∧ first_seen a' = first_seen a
      ∧ last_updated a' = last_updated a
      ∧ email_count a ≤ email_count a'
      ∧ status_history a `prefix_of` status_history a'.

(** No IndexedDB transaction fails. *)
Definition healthy (O : Outside) : Prop := ∀ n, txFails O n = false.

(** A record as [store.put] writes it when the clock reads a non-empty
    string: every defaulted field is filled. *)
Definition complete (a : AppEntry) : Prop :=
  (∃ c, company_name (a_job a) = FStr c ∧ str_truthy c = true) ∧
  (∃ t, job_title (a_job a) = FStr t ∧ str_truthy t = true) ∧
  (∃ s, application_date (a_job a) = FStr s) ∧
  (∃ s, contact_email (a_job a) = FStr s) ∧
  (∃ s, job_id (a_job a) = FStr s) ∧
  (∃ s, location (a_job a) = FStr s) ∧
  (∃ s, salary_range (a_job a) = FStr s) ∧
  str_truthy (first_seen a) = true ∧
  (∃ s, current_status a = Some s ∧ str_truthy s = true) ∧
  email_count a ≠ 0 ∧
  (∃ s, last_updated a = Some s ∧ str_truthy s = true).

(** The kinds of the requests a worker has been sent. *)
Definition kinds (w : WebLLMWorker) : list MessageType := m_type <$> sent w.

(** More concrete worlds. *)
Definition lowerString (s : string) : string := caseNormalized s.

Definition closedRuntime : Runtime :=
  {| llm := readyWorker; manager := close emptyManager |}.

Definition coldWorker : WebLLMWorker :=
  {| w_worker := false; isInitialized := false; sent := [] |}.

Definition coldRuntime : Runtime := {| llm := coldWorker; manager := emptyManager |}.

(** Classified yes, extraction times out, status answers rejected. *)
Definition lostExtractionAnswers (n : nat) (m : WorkerMessage) : Settled :=
  match m_type m with
  | MClassify => Resolved (VStr "YES")
  | MExtract => Rejected "Request timed out"
  | MStatus => Resolved (VStr "rejected")
  | _ => Resolved VUndefined
  end.

Definition lostExtractionWorld : Outside := quietOutside lostExtractionAnswers (λ _, false).

(** The first transaction succeeds (the load), the second one fails. *)
Definition failingSaveWorld : Outside :=
  {| respond := acmeAnswers; txFails := λ n, bool_decide (n = 1%nat);
     txError := λ _, "QuotaExceededError"; txFailingPut := λ _, 0%nat;
     isoNow := λ _, "2024-02-01T00:00:00.000Z"; getTime := isoTime;
     sortRanks := λ _, []; nullInvokeMessage := v8NullInvoke;
     aborted := λ _, false |}.

Definition loadedRuntime : Runtime :=
  {| llm := readyWorker; manager := {| db := true; store := ∅; txCount := 1%nat |} |}.

(** A company literally named undefined, then a record without company. *)
Definition undefinedEntry : gmap string AppEntry :=
  {[ "undefined_Engineer" := newEntry (job "undefined" "Engineer") (mail "m0" "2023-12-01") ]}.

(** A processor whose store already holds one application. *)
Definition stockedRuntime : Runtime :=
  {| llm := readyWorker; manager := {| db := true; store := undefinedEntry; txCount := 0%nat |} |}.

Definition namelessJob : JobData :=
  {| company_name := FUndefined; job_title := FStr "Engineer";
     application_date := FUndefined; contact_email := FUndefined; job_id := FUndefined;
     location := FUndefined; salary_range := FUndefined |}.

(** An initialized worker after one more request. *)
Definition posted (w : WebLLMWorker) (m : WorkerMessage) : WebLLMWorker :=
  {| w_worker := true; isInitialized := true; sent := sent w ++ [m] |}.

(** The store after the Acme registry has been saved once. *)
Definition savedAcmeManager : ApplicationStateManager :=
  (updateKnownApplications acmeWorld emptyManager acmeRegistry).2.

(** The clock never reads an empty string. *)
Definition clockReads (O : Outside) : Prop := ∀ n, str_truthy (isoNow O n) = true.

(** The line the orchestrator adds to the aggregate errors when chunk [k]
    (counted from 0) cannot load the registry because the database is closed. *)
Definition closedChunkError (k : nat) : string :=
  "AI processing batch " +:+ pretty (S k) +:+ " failed: " +:+ ensureDB_message.

(** ASCII upper-casing, to run the worker code on ASCII replies. *)
Definition upperAscii (c : Ascii.ascii) : Ascii.ascii :=
  let n := Ascii.nat_of_ascii c in
  if ((97 <=? n) && (n <=? 122))%nat then Ascii.ascii_of_nat (n - 32) else c.

Fixpoint upperString (s : string) : string :=
  match s with
  | EmptyString => EmptyString
  | String c s' => String (upperAscii c) (upperString s')
  end.

(** ** [parseEmailHeaders] of the dashboard *)

Record ParsedHeaders := {
  h_subject : string;
  h_from : string;
  h_to : string;
  h_date : string
}.

Definition noHeaders : ParsedHeaders :=
  {| h_subject := ""; h_from := ""; h_to := ""; h_date := "" |}.

(** One step of the [forEach]: the [switch] on [header.name.toLowerCase()].
    A header is its name and its value. *)
Definition readHeader (toLowerCase : string → string) (result : ParsedHeaders)
    (header : string * string) : ParsedHeaders :=
  let name := toLowerCase header.1 in
  if String.eqb name "subject" then
    {| h_subject := header.2; h_from := h_from result; h_to := h_to result;
       h_date := h_date result |}
  else if String.eqb name "from" then
    {| h_subject := h_subject result; h_from := header.2; h_to := h_to result;
       h_date := h_date result |}
  else if String.eqb name "to" then
    {| h_subject := h_subject result; h_from := h_from result; h_to := header.2;
       h_date := h_date result |}
  else if String.eqb name "date" then
    {| h_subject := h_subject result; h_from := h_from result; h_to := h_to result;
       h_date := header.2 |}
  else result.

Definition parseEmailHeaders (toLowerCase : string → string)
    (headers : list (string * string)) : ParsedHeaders :=
  foldl (readHeader toLowerCase) noHeaders headers.

(** The value of the last header of [headers] whose lower-cased name is
    [name], or the empty string. *)
Fixpoint lastValue (toLowerCase : string → string) (name : string)
    (headers : list (string * string)) : string :=
  match headers with
  | [] => ""
  | h :: rest =>
      if existsb (λ h', String.eqb (toLowerCase h'.1) name) rest
      then lastValue toLowerCase name rest
      else if String.eqb (toLowerCase h.1) name then h.2 else ""
  end.

(** ** The entry two emails of one application share *)

(** [known2] still holds under [k] the entry [known1] has there, with the
    same count and first_seen; other keys and the history are free. *)
Definition keepsEntry (k : string) (known1 known2 : gmap string AppEntry) : Prop :=
  ∀ a1, known1 !! k = Some a1 →
    ∃ a2, known2 !! k = Some a2
      ∧ email_count a2 = email_count a1 ∧ first_seen a2 = first_seen a1.

(** A second Acme email met after an email of another application (Globex)
    has gone through the same two stages on the registry the first one left. *)
Definition globexBetween : ApplicationState :=
  extractedState (mail "g1" "2024-01-10") (VObj (job "Globex" "Analyst"))
    (knownApplications
       (determineStatusNode acmeWorld (checkFirstInstanceNode acmeFirst) readyWorker).1).

Definition acmeLater : ApplicationState :=
  extractedState (mail "m2" "2024-01-15") (VObj (job "Acme" "Engineer"))
    (knownApplications
       (determineStatusNode acmeWorld (checkFirstInstanceNode globexBetween) readyWorker).1).

(** ** The processing order of a batch, as a fold *)

(** One email of the batch: processed on the registry and the processor
    state that the emails before it left; its outcome goes at the end. *)
Definition stepEmail (O : Outside)
    (s : list ProcessingResult * gmap string AppEntry * Runtime) (e : EmailData)
  : list ProcessingResult * gmap string AppEntry * Runtime :=
  let '(r, known', rt') := processEmail O e s.1.2 s.2 in
  (s.1.1 ++ [r], known', rt').

(** The second of three emails has no Date header. *)
Definition undatedEmails : list EmailData :=
  [mail "m1" "2024-01-15"; mail "m2" ""; mail "m3" "2024-01-01"].

Definition undatedResults : list ProcessingResult :=
  match (runChronologically acmeWorld undatedEmails readyRuntime).1 with
  | Ok (results, _) => results
  | Throw _ => []
  end.

(** ** Chunks of a run of the orchestrator *)




(** * Theorems *)

(** ** The RPC channel *)

Section ChannelFacts.
Import Channel.

Lemma settle_count_app p l1 l2 :
  settle_count p (l1 ++ l2) = (settle_count p l1 + settle_count p l2)%nat.
Proof.
  induction l1 as [|[q s] l1 IH]; simpl; [done|]. rewrite IH. lia.
Qed.

Lemma settle_count_perm p l1 l2 :
  l1 ≡ₚ l2 → settle_count p l1 = settle_count p l2.
Proof.
  induction 1 as [|[q s] l1 l2 _ IH|[q s] [q' s'] l|l1 l2 l3 _ IH1 _ IH2]; simpl; lia.
Qed.

Lemma settle_count_entries_none p msg (l : list (string * nat)) :
  (∀ e, e ∈ l → e.2 ≠ p) →
  settle_count p ((λ e, (e.2, RejectError msg)) <$> l) = 0%nat.
Proof.
  induction l as [|e l IH]; intros H; [done|].
  rewrite fmap_cons. cbn [settle_count].
  rewrite IH; [|intros e' He'; apply H; by right].
  destruct (decide (e.2 = p)) as [Heq|]; [|done].
  exfalso. apply (H e); [by left|done].
Qed.

Lemma settle_count_map_none p msg (m : gmap string nat) :
  (∀ i, m !! i ≠ Some p) →
  settle_count p ((λ e, (e.2, RejectError msg)) <$> map_to_list m) = 0%nat.
Proof.
  intros H. apply settle_count_entries_none. intros [i q] Hin Heq.
  apply elem_of_map_to_list in Hin. simpl in Heq. subst q. by apply (H i).
Qed.

Lemma settle_count_map_one p msg (m : gmap string nat) i :
  m !! i = Some p → (∀ j, m !! j = Some p → j = i) →
  settle_count p ((λ e, (e.2, RejectError msg)) <$> map_to_list m) = 1%nat.
Proof.
  intros Hi Huniq.
  rewrite <- (settle_count_perm p _ _
    (fmap_Permutation _ _ _ (map_to_list_delete m i p Hi))).
  simpl. rewrite decide_True by done.
  rewrite settle_count_map_none; [done|].
  intros j Hj. destruct (decide (j = i)) as [->|Hne].
  - by rewrite lookup_delete_eq in Hj.
  - rewrite lookup_delete_ne in Hj by done. by apply Hne, Huniq.
Qed.

Lemma cleared_timers_lookup (l : list (string * nat)) (t : gmap nat string) p :
  foldr (λ e t, delete e.2 t) t l !! p =
  if decide (p ∈ l.*2) then None else t !! p.
Proof.
  induction l as [|e l IH].
  - cbn [foldr]. destruct (decide _) as [Hin|]; [by apply elem_of_nil in Hin|done].
  - rewrite fmap_cons. cbn [foldr].
    destruct (decide (e.2 = p)) as [<-|Hne].
    + rewrite lookup_delete_eq. rewrite decide_True; [done|]. by left.
    + rewrite lookup_delete_ne by done. rewrite IH.
      destruct (decide (p ∈ l.*2)) as [Hin|Hnin].
      * rewrite decide_True; [done|]. by right.
      * rewrite decide_False; [done|].
        intros Hc. apply elem_of_cons in Hc as [->|Hc]; done.
Qed.

Lemma in_pending_handles (m : gmap string nat) p :
  p ∈ (map_to_list m).*2 ↔ ∃ i, m !! i = Some p.
Proof.
  rewrite list_elem_of_fmap. split.
  - intros [[i q] [-> Hin]]. exists i. by apply elem_of_map_to_list.
  - intros [i Hi]. exists (i, p). split; [done|]. by apply elem_of_map_to_list.
Qed.

Lemma Consistent_initial : Consistent initial.
Proof.
  split; unfold settled_times; simpl; intros; simplify_map_eq; try done; lia.
Qed.

Lemma Consistent_log line st : Consistent st → Consistent (log line st).
Proof. intros [H1 H2 H3 H4]. by split. Qed.

Lemma Consistent_set_worker b st : Consistent st → Consistent (set_worker b st).
Proof. intros [H1 H2 H3 H4]. by split. Qed.

Lemma Consistent_post_raw i st : Consistent st → Consistent (post_raw i st).
Proof. intros [H1 H2 H3 H4]. by split. Qed.

Lemma Consistent_postMessage i st : Consistent st → Consistent (postMessage i st).
Proof.
  intros [H1 H2 H3 H4]. unfold postMessage, settled_times in *.
  assert (Hfresh : timers st !! nextPromise st = None).
  { destruct (timers st !! nextPromise st) as [j|] eqn:E; [|done].
    apply H2 in E. lia. }
  destruct (worker st); split; unfold settled_times; simpl.
  - intros j p Hj. destruct (decide (i = j)) as [->|Hne].
    + rewrite lookup_insert_eq in Hj. injection Hj as <-. by rewrite lookup_insert_eq.
    + rewrite lookup_insert_ne in Hj by done. pose proof (H1 _ _ Hj) as Ht.
      rewrite lookup_insert_ne; [done|]. intros Heq. rewrite Heq in Hfresh. congruence.
  - intros p j Hp. destruct (decide (nextPromise st = p)) as [<-|Hne].
    + split; [lia|]. apply H4. lia.
    + rewrite lookup_insert_ne in Hp by done. apply H2 in Hp. split; [lia|tauto].
  - intros p Hlt Hp. destruct (decide (nextPromise st = p)) as [<-|Hne].
    + by rewrite lookup_insert_eq in Hp.
    + rewrite lookup_insert_ne in Hp by done. apply H3; [lia|done].
  - intros p Hle. apply H4. lia.
  - done.
  - intros p j Hp. rewrite settle_count_app. simpl.
    pose proof (H2 _ _ Hp) as [Hlt Hz].
    rewrite decide_False by lia. split; lia.
  - intros p Hlt Hp. rewrite settle_count_app. simpl.
    destruct (decide (nextPromise st = p)) as [<-|Hne].
    + rewrite H4 by lia. done.
    + rewrite H3 by (done || lia). lia.
  - intros p Hle. rewrite settle_count_app. simpl.
    rewrite decide_False by lia. rewrite H4 by lia. done.
Qed.

Lemma Consistent_answer i p s st :
  Consistent st → pendingRequests st !! i = Some p →
  Consistent (settle_wrapped p s
    {| worker := worker st; pendingRequests := delete i (pendingRequests st);
       timers := timers st; nextPromise := nextPromise st;
       settleLog := settleLog st; outbox := outbox st; console := console st |}).
Proof.
  intros [H1 H2 H3 H4] Hi. pose proof (H1 _ _ Hi) as Hp.
  pose proof (H2 _ _ Hp) as [Hlt Hz].
  unfold settle_wrapped, settled_times in *. split; unfold settled_times; simpl.
  - intros j q Hj. destruct (decide (j = i)) as [->|Hne].
    + by rewrite lookup_delete_eq in Hj.
    + rewrite lookup_delete_ne in Hj by done. pose proof (H1 _ _ Hj) as Hq.
      rewrite lookup_delete_ne; [done|]. intros ->. congruence.
  - intros q j Hq. destruct (decide (p = q)) as [<-|Hne].
    + by rewrite lookup_delete_eq in Hq.
    + rewrite lookup_delete_ne in Hq by done. apply H2 in Hq.
      rewrite settle_count_app. simpl. rewrite decide_False by done. lia.
  - intros q Hq Ht. rewrite settle_count_app. simpl.
    destruct (decide (p = q)) as [<-|Hne]; [lia|].
    rewrite lookup_delete_ne in Ht by done. rewrite H3 by done. lia.
  - intros q Hq. rewrite settle_count_app. simpl.
    rewrite decide_False by lia. rewrite H4 by done. done.
Qed.

Lemma Consistent_handleWorkerMessage r st :
  Consistent st → Consistent (handleWorkerMessage r st).
Proof.
  intros H. unfold handleWorkerMessage.
  destruct (r_progress r) as [[text percent]|]; [by apply Consistent_log|].
  destruct (pendingRequests st !! r_id r) as [p|] eqn:Hi; [|by apply Consistent_log].
  destruct (r_error r) as [e|]; [destruct (str_truthy e)|];
    by apply Consistent_answer.
Qed.

Lemma Consistent_timeoutFires p st : Consistent st → Consistent (timeoutFires p st).
Proof.
  intros [H1 H2 H3 H4]. unfold timeoutFires.
  destruct (timers st !! p) as [i|] eqn:Hp; [|by split].
  pose proof (H2 _ _ Hp) as [Hlt Hz].
  unfold settled_times in *. split; unfold settled_times; simpl.
  - intros j q Hj. destruct (decide (j = i)) as [->|Hne].
    + by rewrite lookup_delete_eq in Hj.
    + rewrite lookup_delete_ne in Hj by done. pose proof (H1 _ _ Hj) as Hq.
      rewrite lookup_delete_ne; [done|]. intros ->. congruence.
  - intros q j Hq. destruct (decide (p = q)) as [<-|Hne].
    + by rewrite lookup_delete_eq in Hq.
    + rewrite lookup_delete_ne in Hq by done. apply H2 in Hq.
      rewrite settle_count_app. simpl. rewrite decide_False by done. lia.
  - intros q Hq Ht. rewrite settle_count_app. simpl.
    destruct (decide (p = q)) as [<-|Hne]; [lia|].
    rewrite lookup_delete_ne in Ht by done. rewrite H3 by done. lia.
  - intros q Hq. rewrite settle_count_app. simpl.
    rewrite decide_False by lia. rewrite H4 by done. done.
Qed.

Lemma Consistent_rejectAllPending msg st :
  Consistent st → Consistent (rejectAllPending msg st).
Proof.
  intros [H1 H2 H3 H4]. unfold rejectAllPending, settled_times in *. split; unfold settled_times; simpl.
  - intros i p Hi. by rewrite lookup_empty in Hi.
  - intros p i. rewrite cleared_timers_lookup.
    destruct (decide (p ∈ (map_to_list (pendingRequests st)).*2)) as [|Hnin]; [done|].
    intros Hp. apply H2 in Hp as [Hlt Hz]. split; [done|].
    rewrite settle_count_app, Hz, settle_count_map_none; [done|].
    intros j Hj. apply Hnin, in_pending_handles. by exists j.
  - intros p Hlt. rewrite cleared_timers_lookup, settle_count_app.
    destruct (decide (p ∈ (map_to_list (pendingRequests st)).*2)) as [Hin|Hnin].
    + intros _. apply in_pending_handles in Hin as [i Hi].
      pose proof (H1 _ _ Hi) as Hp. pose proof (H2 _ _ Hp) as [_ ->].
      rewrite (settle_count_map_one p msg _ i); [done|done|].
      intros j Hj. apply H1 in Hj. congruence.
    + intros Hp. rewrite H3 by done.
      rewrite settle_count_map_none; [done|].
      intros j Hj. apply Hnin, in_pending_handles. by exists j.
  - intros p Hle. rewrite settle_count_app, H4 by done.
    rewrite settle_count_map_none; [done|].
    intros j Hj. apply H1 in Hj. apply H2 in Hj. lia.
Qed.

Lemma Consistent_step st ev : Consistent st → Consistent (step st ev).
Proof.
  intros H. destruct ev; simpl.
  - by apply Consistent_set_worker.
  - by apply Consistent_postMessage.
  - by apply Consistent_handleWorkerMessage.
  - by apply Consistent_timeoutFires.
  - by apply Consistent_rejectAllPending, Consistent_log.
  - unfold terminate. destruct (worker st); [|done].
    by apply Consistent_log, Consistent_rejectAllPending, Consistent_set_worker,
      Consistent_post_raw.
Qed.

Lemma Consistent_run evs : Consistent (run evs).
Proof.
  unfold run. generalize Consistent_initial. generalize initial.
  induction evs as [|ev evs IH]; intros st H; simpl; [done|].
  by apply IH, Consistent_step.
Qed.

End ChannelFacts.

Lemma handleWorkerMessage_known r st p :
  Channel.r_progress r = None →
  Channel.pendingRequests st !! Channel.r_id r = Some p →
  Channel.settleLog (Channel.handleWorkerMessage r st)
    = Channel.settleLog st ++ [(p, Channel.answerOf r)]
  ∧ Channel.pendingRequests (Channel.handleWorkerMessage r st)
    = delete (Channel.r_id r) (Channel.pendingRequests st)
  ∧ Channel.timers (Channel.handleWorkerMessage r st) = delete p (Channel.timers st).
Proof.
  intros Hprog Hp. unfold Channel.handleWorkerMessage, Channel.answerOf. rewrite Hprog, Hp.
  destruct (Channel.r_error r) as [e|]; [destruct (str_truthy e)|]; done.
Qed.

Lemma postCount_app evs1 evs2 :
  Channel.postCount (evs1 ++ evs2) = (Channel.postCount evs1 + Channel.postCount evs2)%nat.
Proof.
  induction evs1 as [|ev evs1 IH]; [done|]. destruct ev; simpl; rewrite ?IH; lia.
Qed.

Lemma step_nextPromise st ev :
  Channel.nextPromise (Channel.step st ev)
  = (Channel.nextPromise st + Channel.postCount [ev])%nat.
Proof.
  destruct ev; simpl; rewrite ?Nat.add_0_r; try done.
  - unfold Channel.postMessage. destruct (Channel.worker st); simpl; lia.
  - unfold Channel.handleWorkerMessage.
    destruct (Channel.r_progress r) as [[text percent]|]; [done|].
    destruct (Channel.pendingRequests st !! Channel.r_id r); [|done].
    destruct (Channel.r_error r) as [e|]; [destruct (str_truthy e)|]; done.
  - unfold Channel.timeoutFires. by destruct (Channel.timers st !! p).
  - unfold Channel.terminate. by destruct (Channel.worker st).
Qed.

Lemma run_nextPromise evs : Channel.nextPromise (Channel.run evs) = Channel.postCount evs.
Proof.
  induction evs as [|ev evs IH] using rev_ind; [done|].
  unfold Channel.run in *. rewrite foldl_app, postCount_app. cbn [foldl].
  by rewrite step_nextPromise, IH.
Qed.

(** Once the timeout callbacks of a list of promises have run, none of
    their timers is armed any more, and no other timer has been armed. *)
Lemma timers_spent (l : list nat) st :
  Channel.Consistent st →
  let st' := foldl Channel.step st (Channel.ETimer <$> l) in
  Channel.Consistent st' ∧ Channel.nextPromise st' = Channel.nextPromise st ∧
  (∀ p, Channel.timers st !! p = None → Channel.timers st' !! p = None) ∧
  (∀ p, p ∈ l → Channel.timers st' !! p = None).
Proof.
  revert st. induction l as [|q l IH]; intros st Hc; cbn [fmap list_fmap foldl].
  - split; [done|]. split; [done|]. split; [done|]. intros p Hp. by apply elem_of_nil in Hp.
  - assert (Hq : Channel.timers (Channel.step st (Channel.ETimer q)) !! q = None).
    { simpl. unfold Channel.timeoutFires.
      destruct (Channel.timers st !! q) eqn:E; [|done]. simpl. apply lookup_delete_eq. }
    assert (Hmono : ∀ p, Channel.timers st !! p = None →
                         Channel.timers (Channel.step st (Channel.ETimer q)) !! p = None).
    { intros p Hp. simpl. unfold Channel.timeoutFires.
      destruct (Channel.timers st !! q) eqn:E; [|done]. simpl.
      destruct (decide (q = p)) as [->|Hne]; [apply lookup_delete_eq|].
      by rewrite lookup_delete_ne. }
    destruct (IH (Channel.step st (Channel.ETimer q)) (Consistent_step st _ Hc))
      as (Hc' & Hn & Hkeep & Hall).
    split; [done|]. split; [by rewrite Hn, step_nextPromise; simpl; lia|].
    split; [intros p Hp; by apply Hkeep, Hmono|].
    intros p Hp. apply elem_of_cons in Hp as [->|Hp]; [by apply Hkeep|by apply Hall].
Qed.

(** C1.  After any sequence of channel events (worker creation, posts,
    worker messages, timer callbacks, worker errors, termination):

    - every call of [postMessage] has created exactly one promise (the
      promises are numbered by the posts), and a further call creates the
      next one: with a worker, the request is posted, its id enters the
      pending table for that promise and the promise's timer is armed;
      without a worker the promise is rejected on the spot;
    - for every promise created, the original [res] / [rej] has been called
      at most once; if it has not been called yet, the promise's timer is
      still armed and its callback settles the promise as a timeout;
    - once the timeout callbacks of all promises have run, every promise
      has been settled exactly once: no request stays unsettled;
    - no entry of the pending table refers to a settled promise;
    - a worker message whose id has no pending entry only adds a console
      line: the table, the timers and the settle log are unchanged; a
      worker message for a pending id settles that entry's promise (once)
      and removes the entry from the table. *)
Theorem channel_settles_each_request_once (evs : list Channel.Event) :
  let st := Channel.run evs in
  Channel.nextPromise st = Channel.postCount evs ∧
  (∀ i, let p := Channel.nextPromise st in
        let st' := Channel.step st (Channel.EPost i) in
        Channel.nextPromise st' = S p ∧
        if Channel.worker st then
          Channel.pendingRequests st' !! i = Some p ∧
          Channel.timers st' !! p = Some i ∧
          Channel.outbox st' = Channel.outbox st ++ [i] ∧
          Channel.settleLog st' = Channel.settleLog st ∧
          Channel.settled_times p st' = 0%nat
        else
          Channel.settleLog st'
            = Channel.settleLog st ++ [(p, Channel.RejectError "Worker not initialized")] ∧
          Channel.settled_times p st' = 1%nat ∧
          Channel.pendingRequests st' = Channel.pendingRequests st ∧
          Channel.timers st' = Channel.timers st ∧
          Channel.outbox st' = Channel.outbox st) ∧
  (∀ p, (p < Channel.nextPromise st)%nat →
     (Channel.settled_times p st ≤ 1)%nat ∧
     (Channel.settled_times p st = 1%nat ∨
      ∃ i, Channel.timers st !! p = Some i ∧
           Channel.settleLog (Channel.step st (Channel.ETimer p))
             = Channel.settleLog st ++ [(p, Channel.RejectTimeout i)] ∧
           Channel.settled_times p (Channel.step st (Channel.ETimer p)) = 1%nat)) ∧
  (∀ p, (p < Channel.nextPromise st)%nat →
     Channel.settled_times p
       (foldl Channel.step st (Channel.timeouts (Channel.nextPromise st))) = 1%nat) ∧
  (∀ i p, Channel.pendingRequests st !! i = Some p →
     (p < Channel.nextPromise st)%nat ∧ Channel.settled_times p st = 0%nat) ∧
  (∀ r, Channel.r_progress r = None →
     match Channel.pendingRequests st !! Channel.r_id r with
     | None =>
         Channel.step st (Channel.EMessage r)
         = Channel.log ("Received response for unknown request ID: " +:+ Channel.r_id r) st
     | Some p =>
         Channel.settleLog (Channel.step st (Channel.EMessage r))
           = Channel.settleLog st ++ [(p, Channel.answerOf r)]
         ∧ Channel.settled_times p (Channel.step st (Channel.EMessage r)) = 1%nat
         ∧ Channel.pendingRequests (Channel.step st (Channel.EMessage r)) !! Channel.r_id r
           = None
     end).
Proof.
  intros st. pose proof (Consistent_run evs) as Hc. fold st in Hc.
  split; [apply run_nextPromise|]. split; [|split; [|split; [|split]]].
  - intros i p st'. subst p st'.
    pose proof (Channel.cons_future st Hc (Channel.nextPromise st) (le_n _)) as Hz.
    simpl. unfold Channel.postMessage, Channel.settled_times in *.
    destruct (Channel.worker st); simpl.
    + split; [done|]. rewrite !lookup_insert_eq. done.
    + split; [done|]. split; [done|]. rewrite settle_count_app, Hz. simpl.
      by rewrite decide_True.
  - intros p Hlt.
    destruct (Channel.timers st !! p) as [i|] eqn:Hp.
    + pose proof (Channel.cons_armed st Hc p i Hp) as [_ Hz].
      split; [lia|]. right. exists i. split; [done|].
      pose proof (Consistent_timeoutFires p st Hc) as Hc'.
      assert (Hlog : Channel.settleLog (Channel.step st (Channel.ETimer p))
                = Channel.settleLog st ++ [(p, Channel.RejectTimeout i)]).
      { simpl. unfold Channel.timeoutFires. by rewrite Hp. }
      split; [done|].
      unfold Channel.settled_times in *. rewrite Hlog, settle_count_app, Hz.
      simpl. by rewrite decide_True.
    + pose proof (Channel.cons_spent st Hc p Hlt Hp) as H1. split; [lia|by left].
  - intros p Hlt.
    destruct (timers_spent (seq 0 (Channel.nextPromise st)) st Hc) as (Hc' & Hn & _ & Hall).
    apply (Channel.cons_spent _ Hc'); [by rewrite Hn|].
    apply Hall, elem_of_seq. lia.
  - intros i p Hi. apply (Channel.cons_pending st Hc) in Hi. by apply (Channel.cons_armed st Hc) in Hi.
  - intros r Hprog.
    destruct (Channel.pendingRequests st !! Channel.r_id r) as [p|] eqn:Hi.
    + destruct (handleWorkerMessage_known r st p Hprog Hi) as (Hlog & Hpend & _).
      pose proof (Channel.cons_pending st Hc _ _ Hi) as Hp.
      pose proof (Channel.cons_armed st Hc _ _ Hp) as [_ Hz].
      simpl. split; [done|]. split.
      * unfold Channel.settled_times in *. rewrite Hlog, settle_count_app, Hz.
        simpl. by rewrite decide_True.
      * rewrite Hpend. apply lookup_delete_eq.
    + simpl. unfold Channel.handleWorkerMessage. by rewrite Hprog, Hi.
Qed.

(** Even when two requests share an id, each promise is settled once: the
    first answer resolves the later request, the second answer is dropped
    with a warning, and the earlier request ends by its timeout. *)
Example colliding_ids_settle_once :
  Channel.settleLog (Channel.run collidingEvents)
    = [(1%nat, Channel.Resolve (VBool true));
       (0%nat, Channel.RejectTimeout "classify_1700000000000")]
  ∧ Channel.console (Channel.run collidingEvents)
    = ["Received response for unknown request ID: classify_1700000000000"]
  ∧ Channel.pendingRequests (Channel.run collidingEvents) = ∅
  ∧ Channel.timers (Channel.run collidingEvents) = ∅.
Proof. repeat split; vm_compute; reflexivity. Qed.

(** ** The inference adapter *)

Lemma strict_eq_true_iff v : strict_eq v (VBool true) = true ↔ v = VBool true.
Proof.
  destruct v; simpl; try (split; [by intros ?|by intros ?]).
  all: rewrite bool_decide_eq_true; done.
Qed.

Lemma strict_eq_YES_iff v : strict_eq v (VStr "YES") = true ↔ v = VStr "YES".
Proof.
  destruct v; simpl; try (split; [by intros ?|by intros ?]).
  all: rewrite bool_decide_eq_true; done.
Qed.

(** C10.  With an initialized worker, [classify] returns (never throws), and
    it returns true exactly when the request resolved with the boolean true
    or with the string YES; every other resolved value and every rejection
    give false. *)
Theorem classify_true_only_for_true_or_YES (O : Outside) (w : WebLLMWorker)
    (emailContent : string) :
  isInitialized w = true →
  ∃ b, (classify O w emailContent).1 = Ok b ∧
    match (awaitPostMessage O w (classifyRequest emailContent)).1 with
    | Resolved v => b = true ↔ (v = VBool true ∨ v = VStr "YES")
    | Rejected _ => b = false
    end.
Proof.
  intros Hinit. unfold classify, classifyRequest. rewrite Hinit. simpl.
  destruct (awaitPostMessage O w _) as [[v|msg] w']; simpl.
  - eexists; split; [done|].
    rewrite orb_true_iff, strict_eq_true_iff, strict_eq_YES_iff. done.
  - by eexists.
Qed.

Lemma classify_true_only_for_true_or_YES_witness :
  isInitialized readyWorker = true ∧
  ∃ b, (classify acmeWorld readyWorker "Subject: Offer").1 = Ok b ∧
    match (awaitPostMessage acmeWorld readyWorker (classifyRequest "Subject: Offer")).1 with
    | Resolved v => b = true ↔ (v = VBool true ∨ v = VStr "YES")
    | Rejected _ => b = false
    end.
Proof.
  split; [reflexivity|].
  apply (classify_true_only_for_true_or_YES acmeWorld readyWorker "Subject: Offer").
  reflexivity.
Defined.

Example classify_lowercase_yes_is_false :
  (classify (quietOutside (λ _ _, Resolved (VStr "yes")) (λ _, false)) readyWorker "x").1
  = Ok false.
Proof. reflexivity. Qed.

Example classify_containing_YES_is_false :
  (classify (quietOutside (λ _ _, Resolved (VStr "YES.")) (λ _, false)) readyWorker "x").1
  = Ok false.
Proof. reflexivity. Qed.

Example classify_timeout_is_false :
  (classify silentWorld readyWorker "x").1 = Ok false.
Proof. reflexivity. Qed.

(** ** CheckFirstInstance *)

(** C8.  When the extraction result is null (or undefined), or is a record
    whose company_name is missing, null or empty, [checkFirstInstanceNode]
    sets isFirstInstance to false and returns the registry it was given:
    no entry is created and no entry changes. *)
Theorem checkFirstInstance_skips_without_company (state : ApplicationState) :
  (jobData state = VNull ∨ jobData state = VUndefined ∨
   ∃ o, jobData state = VObj o ∧ field_truthy (company_name o) = false) →
  isFirstInstance (checkFirstInstanceNode state) = Some false ∧
  knownApplications (checkFirstInstanceNode state) = knownApplications state.
Proof.
  intros H. unfold checkFirstInstanceNode.
  destruct H as [->|[->|(o & -> & Ho)]]; simpl; [done|done|].
  by rewrite Ho.
Qed.

Lemma checkFirstInstance_skips_without_company_witness :
  (jobData (extractedState (mail "m1" "2024-01-01") VNull ∅) = VNull ∨
   jobData (extractedState (mail "m1" "2024-01-01") VNull ∅) = VUndefined ∨
   ∃ o, jobData (extractedState (mail "m1" "2024-01-01") VNull ∅) = VObj o
        ∧ field_truthy (company_name o) = false) ∧
  isFirstInstance (checkFirstInstanceNode (extractedState (mail "m1" "2024-01-01") VNull ∅))
    = Some false ∧
  knownApplications (checkFirstInstanceNode (extractedState (mail "m1" "2024-01-01") VNull ∅))
    = knownApplications (extractedState (mail "m1" "2024-01-01") VNull ∅).
Proof.
  split; [left; reflexivity|].
  apply (checkFirstInstance_skips_without_company
           (extractedState (mail "m1" "2024-01-01") VNull ∅)).
  left. reflexivity.
Defined.

(** With a null extraction the status step does not touch the registry
    either, whatever the worker answers. *)
Lemma null_extraction_leaves_registry (O : Outside) (state : ApplicationState)
    (w : WebLLMWorker) :
  truthy (jobData state) = false →
  knownApplications (determineStatusNode O (checkFirstInstanceNode state) w).1
  = knownApplications state.
Proof.
  intros H. unfold determineStatusNode, checkFirstInstanceNode. rewrite H. simpl.
  destruct (determineStatus O w _ _) as [[status|msg] w']; simpl; [|done].
  unfold recordStatus. by rewrite H.
Qed.

Lemma recordStatus_lookup (data : JsValue) (status : string)
    (known : gmap string AppEntry) (k : string) :
  recordStatus data status known !! k =
  if truthy data && bool_decide (k = appKey (fields_of data))
  then pushStatus status <$> known !! k
  else known !! k.
Proof.
  unfold recordStatus. destruct (truthy data); simpl; [|done].
  case_bool_decide as Hk.
  - subst k. destruct (known !! appKey (fields_of data)) as [a|] eqn:E; simpl.
    + by rewrite lookup_insert_eq.
    + by rewrite E.
  - destruct (known !! appKey (fields_of data)) as [a|] eqn:E; [|done].
    by rewrite lookup_insert_ne.
Qed.

Lemma determineStatusNode_keeps_count (O : Outside) (state : ApplicationState)
    (w : WebLLMWorker) (k : string) (a : AppEntry) :
  knownApplications state !! k = Some a →
  ∃ a', knownApplications (determineStatusNode O state w).1 !! k = Some a'
        ∧ email_count a' = email_count a ∧ first_seen a' = first_seen a.
Proof.
  intros Hk. unfold determineStatusNode.
  destruct (determineStatus O w _ _) as [[status|msg] w']; simpl; [|by exists a].
  rewrite recordStatus_lookup, Hk.
  destruct (truthy (jobData state) && _); simpl; eexists; split; done.
Qed.

(** Counterexample to C2 as stated: two emails whose company names are the
    same up to letter case (Acme, ACME) and whose titles are equal.  The
    second email is marked first instance again, gets an entry of its own,
    and the count of the first entry stays 1. *)
Lemma case_variants_are_both_first :
  caseNormalized "ACME" = caseNormalized "Acme" ∧
  isFirstInstance (checkFirstInstanceNode acmeFirst) = Some true ∧
  isFirstInstance (checkFirstInstanceNode acmeCapitals) = Some true ∧
  isFirstInstance (checkFirstInstanceNode acmeCapitals) ≠ Some false ∧
  email_count <$> knownApplications (checkFirstInstanceNode acmeCapitals) !! "Acme_Engineer"
    = Some 1 ∧
  email_count <$> knownApplications (checkFirstInstanceNode acmeCapitals) !! "ACME_Engineer"
    = Some 1.
Proof.
  assert (H : isFirstInstance (checkFirstInstanceNode acmeCapitals) = Some true)
    by (vm_compute; reflexivity).
  split; [reflexivity|]. split; [vm_compute; reflexivity|]. split; [exact H|].
  split; [rewrite H; discriminate|]. split; vm_compute; reflexivity.
Qed.

(** The three ways out of [checkFirstInstanceNode]: nothing to register (no
    company, or a key that is only inherited), one more email of a known
    application, a new application. *)
Lemma checkFirstInstanceNode_cases (state : ApplicationState) :
  let key := appKey (fields_of (jobData state)) in
  checkFirstInstanceNode state = with_first state false (knownApplications state)
  ∨ (∃ a, knownApplications state !! key = Some a ∧
          checkFirstInstanceNode state
          = with_first state false (<[key := countEmail a]> (knownApplications state)))
  ∨ (knownApplications state !! key = None ∧
     checkFirstInstanceNode state
     = with_first state true
         (<[key := newEntry (fields_of (jobData state)) (email state)]>
            (knownApplications state))).
Proof.
  intros key. unfold checkFirstInstanceNode, hasKey. fold key.
  destruct (_ || _); [by left|].
  destruct (knownApplications state !! key) as [a|] eqn:E.
  - right; left. exists a. split; [done|].
    by rewrite (bool_decide_eq_true_2 (is_Some (Some a))) by by eexists.
  - rewrite (bool_decide_eq_false_2 (is_Some None)) by (intros [? ?]; done).
    simpl. destruct (bool_decide (key ∈ objectPrototypeKeys)); simpl.
    + by left.
    + right; right. done.
Qed.

Lemma checkFirstInstanceNode_fresh (state : ApplicationState) (jd : JobData) :
  jobData state = VObj jd → field_truthy (company_name jd) = true →
  knownApplications state !! appKey jd = None → appKey jd ∉ inheritableKeys →
  checkFirstInstanceNode state
  = with_first state true (<[appKey jd := newEntry jd (email state)]> (knownApplications state)).
Proof.
  intros Hd Hc Hfresh Hown. unfold checkFirstInstanceNode, hasKey. rewrite Hd. simpl.
  rewrite Hc, Hfresh. simpl.
  assert (Hstd : appKey jd ∉ objectPrototypeKeys).
  { intros Hin. apply Hown, elem_of_app. by left. }
  by rewrite (bool_decide_eq_false_2 _ Hstd).
Qed.

Lemma checkFirstInstanceNode_known (state : ApplicationState) (jd : JobData) (a : AppEntry) :
  jobData state = VObj jd → field_truthy (company_name jd) = true →
  knownApplications state !! appKey jd = Some a →
  checkFirstInstanceNode state
  = with_first state false (<[appKey jd := countEmail a]> (knownApplications state)).
Proof.
  intros Hd Hc Ha. unfold checkFirstInstanceNode, hasKey. rewrite Hd. simpl.
  rewrite Hc, Ha. done.
Qed.

(** A key that is only inherited from [Object.prototype] (here company _
    and title proto__) is never a first instance and gets no entry. *)
Example inherited_key_is_never_first :
  appKey (job "_" "proto__") = "__proto__" ∧
  isFirstInstance
    (checkFirstInstanceNode (extractedState (mail "m1" "2024-01-01") (VObj (job "_" "proto__")) ∅))
  = Some false ∧
  knownApplications
    (checkFirstInstanceNode (extractedState (mail "m1" "2024-01-01") (VObj (job "_" "proto__")) ∅))
  = ∅.
Proof. repeat split; vm_compute; reflexivity. Qed.

(** C2, amended.  Two emails whose extracted records carry exactly the same
    company name (compared as written, letter case included) and the same
    title as the key reads it (a missing title reads unknown), under a key
    that is not a property name the registry object inherits (the names of
    [Object.prototype], and the three fields an email keyed __proto__
    writes there); the first one is met while the registry has no entry
    under their key:
    CheckFirstInstance marks the first email as first instance and creates
    the entry with first_seen = that email's date, status_history =
    [applied] and email_count = 1.  The second email is met on any registry
    that still holds, under that key, the entry as the first email's status
    step left it in count and first_seen (whatever the worker answered, and
    whatever happened to other keys in between): CheckFirstInstance marks it
    as not first, the entry's email_count is 2 and its first_seen is still
    the first email's date. *)
Theorem first_email_creates_second_counts (O : Outside) (w : WebLLMWorker)
    (st1 st2 : ApplicationState) (jd1 jd2 : JobData) :
  jobData st1 = VObj jd1 → jobData st2 = VObj jd2 →
  field_truthy (company_name jd1) = true →
  company_name jd2 = company_name jd1 →
  field_or (job_title jd2) "unknown" = field_or (job_title jd1) "unknown" →
  knownApplications st1 !! appKey jd1 = None →
  appKey jd1 ∉ inheritableKeys →
  keepsEntry (appKey jd1)
    (knownApplications (determineStatusNode O (checkFirstInstanceNode st1) w).1)
    (knownApplications st2) →
  isFirstInstance (checkFirstInstanceNode st1) = Some true ∧
  (∃ a, knownApplications (checkFirstInstanceNode st1) !! appKey jd1 = Some a
        ∧ first_seen a = date (email st1)
        ∧ status_history a = ["applied"]
        ∧ email_count a = 1) ∧
  isFirstInstance (checkFirstInstanceNode st2) = Some false ∧
  (∃ a, knownApplications (checkFirstInstanceNode st2) !! appKey jd2 = Some a
        ∧ first_seen a = date (email st1)
        ∧ email_count a = 2).
Proof.
  intros Hd1 Hd2 Hc Hsame_c Hsame_t Hfresh Hown Hreg.
  assert (Hkey : appKey jd2 = appKey jd1).
  { unfold appKey. by rewrite Hsame_c, Hsame_t. }
  rewrite (checkFirstInstanceNode_fresh st1 jd1 Hd1 Hc Hfresh Hown) in *.
  split; [done|]. split.
  { exists (newEntry jd1 (email st1)). simpl. by rewrite lookup_insert_eq. }
  destruct (determineStatusNode_keeps_count O
              (with_first st1 true
                 (<[appKey jd1 := newEntry jd1 (email st1)]> (knownApplications st1)))
              w (appKey jd1) (newEntry jd1 (email st1)))
    as (a' & Ha' & Hcount & Hseen).
  { simpl. by rewrite lookup_insert_eq. }
  destruct (Hreg a' Ha') as (a2 & Ha2 & Hcount2 & Hseen2).
  rewrite <- Hkey in Ha2.
  rewrite (checkFirstInstanceNode_known st2 jd2 a2 Hd2); [|by rewrite Hsame_c|done].
  split; [done|].
  exists (countEmail a2). simpl. rewrite lookup_insert_eq. split; [done|].
  simpl. rewrite Hcount2, Hseen2, Hcount, Hseen. done.
Qed.

Lemma first_email_creates_second_counts_witness :
  (jobData acmeFirst = VObj (job "Acme" "Engineer") ∧
   jobData acmeLater = VObj (job "Acme" "Engineer") ∧
   field_truthy (company_name (job "Acme" "Engineer")) = true ∧
   knownApplications acmeFirst !! appKey (job "Acme" "Engineer") = None ∧
   (appKey (job "Acme" "Engineer") ∉ inheritableKeys) ∧
   keepsEntry (appKey (job "Acme" "Engineer"))
     (knownApplications
        (determineStatusNode acmeWorld (checkFirstInstanceNode acmeFirst) readyWorker).1)
     (knownApplications acmeLater)) ∧
  isFirstInstance (checkFirstInstanceNode acmeFirst) = Some true ∧
  (∃ a, knownApplications (checkFirstInstanceNode acmeFirst)
          !! appKey (job "Acme" "Engineer") = Some a
        ∧ first_seen a = date (email acmeFirst)
        ∧ status_history a = ["applied"]
        ∧ email_count a = 1) ∧
  isFirstInstance (checkFirstInstanceNode acmeLater) = Some false ∧
  (∃ a, knownApplications (checkFirstInstanceNode acmeLater)
          !! appKey (job "Acme" "Engineer") = Some a
        ∧ first_seen a = date (email acmeFirst)
        ∧ email_count a = 2).
Proof.
  assert (Hown : appKey (job "Acme" "Engineer") ∉ inheritableKeys).
  { apply (bool_decide_unpack _). vm_compute. exact I. }
  assert (Hkeeps : keepsEntry (appKey (job "Acme" "Engineer"))
     (knownApplications
        (determineStatusNode acmeWorld (checkFirstInstanceNode acmeFirst) readyWorker).1)
     (knownApplications acmeLater)).
  { intros a1 H1. vm_compute in H1. injection H1 as <-.
    eexists. split; [vm_compute; reflexivity|]. split; reflexivity. }
  split; [repeat split; (reflexivity || assumption)|].
  apply (first_email_creates_second_counts acmeWorld readyWorker acmeFirst acmeLater
           (job "Acme" "Engineer") (job "Acme" "Engineer"));
    try reflexivity; assumption.
Defined.

(** ** DetermineStatus *)

Lemma determineStatus_initialized (O : Outside) (w : WebLLMWorker) (c s : string) :
  isInitialized w = true →
  (determineStatus O w c s).1 =
  Ok (match (awaitPostMessage O w (statusRequest c s)).1 with
      | Resolved v => validate_status v
      | Rejected _ => "pending"
      end).
Proof.
  intros Hinit. unfold determineStatus. rewrite Hinit. simpl.
  by destruct (awaitPostMessage O w _) as [[v|msg] w'].
Qed.

Lemma failed_answer_is_pending (r : Settled) :
  statusAnswerFailed r = true →
  match r with Resolved v => validate_status v | Rejected _ => "pending" end = "pending".
Proof.
  destruct r as [v|msg]; [|done]. destruct v; simpl; try done.
  intros H. apply negb_true_iff in H. by rewrite H.
Qed.

(** Counterexample to C3 as stated: the status request of the first Acme
    email times out; the outcome reports pending, and pending is appended to
    the entry's history, which was [applied] before the step. *)
Lemma status_timeout_appends_pending :
  statusAnswerFailed
    (awaitPostMessage silentWorld readyWorker (statusRequestOf acmeChecked)).1 = true ∧
  applicationStatus (determineStatusNode silentWorld acmeChecked readyWorker).1
    = Some "pending" ∧
  status_history <$> knownApplications acmeChecked !! "Acme_Engineer"
    = Some ["applied"] ∧
  status_history <$>
    knownApplications (determineStatusNode silentWorld acmeChecked readyWorker).1
      !! "Acme_Engineer"
    = Some ["applied"; "pending"] ∧
  knownApplications (determineStatusNode silentWorld acmeChecked readyWorker).1
    ≠ knownApplications acmeChecked.
Proof.
  split; [reflexivity|]. split; [reflexivity|]. split; [reflexivity|].
  split; [reflexivity|].
  intros H.
  apply (f_equal (λ m : gmap string AppEntry, status_history <$> m !! "Acme_Engineer")) in H.
  vm_compute in H. discriminate H.
Qed.

(** C3, amended.  With an initialized worker, when the status request fails
    (it is rejected, or resolves with something outside the enumeration) the
    step reports application_status pending and adds no error; the registry
    is updated exactly as for a determined status pending: when the email has
    job data and its key has an entry, pending is appended to that entry's
    status_history and becomes its current_status; every other entry is
    unchanged, and without job data or without an entry the registry is
    unchanged. *)
Theorem status_failure_records_pending (O : Outside) (state : ApplicationState)
    (w : WebLLMWorker) :
  isInitialized w = true →
  statusAnswerFailed (awaitPostMessage O w (statusRequestOf state)).1 = true →
  let state' := (determineStatusNode O state w).1 in
  let key := appKey (fields_of (jobData state)) in
  applicationStatus state' = Some "pending" ∧
  errors state' = errors state ∧
  (∀ a, truthy (jobData state) = true → knownApplications state !! key = Some a →
     ∃ a', knownApplications state' !! key = Some a'
           ∧ status_history a' = status_history a ++ ["pending"]
           ∧ current_status a' = Some "pending"
           ∧ email_count a' = email_count a) ∧
  (∀ k, k ≠ key → knownApplications state' !! k = knownApplications state !! k) ∧
  (truthy (jobData state) = false ∨ knownApplications state !! key = None →
     knownApplications state' = knownApplications state).
Proof.
  intros Hinit Hfail state' key. subst state'. unfold determineStatusNode.
  pose proof (determineStatus_initialized O w (statusContent (email state))
                (subject (email state)) Hinit) as Hd.
  fold (statusRequestOf state) in Hd.
  rewrite (failed_answer_is_pending _ Hfail) in Hd.
  destruct (determineStatus O w _ _) as [r w']. simpl in Hd. subst r. simpl.
  split; [done|]. split; [done|]. split; [|split].
  - intros a Ht Ha. exists (pushStatus "pending" a).
    rewrite recordStatus_lookup, Ht, Ha. fold key. rewrite bool_decide_eq_true_2 by done.
    done.
  - intros k Hk. rewrite recordStatus_lookup. fold key.
    rewrite (bool_decide_eq_false_2 _ Hk). by rewrite andb_false_r.
  - intros [Ht|Hnone]; unfold recordStatus.
    + by rewrite Ht.
    + fold key. rewrite Hnone. by destruct (truthy (jobData state)).
Qed.

Lemma status_failure_records_pending_witness :
  (isInitialized readyWorker = true ∧
   statusAnswerFailed
     (awaitPostMessage silentWorld readyWorker (statusRequestOf acmeChecked)).1 = true) ∧
  let state' := (determineStatusNode silentWorld acmeChecked readyWorker).1 in
  let key := appKey (fields_of (jobData acmeChecked)) in
  applicationStatus state' = Some "pending" ∧
  errors state' = errors acmeChecked ∧
  (∀ a, truthy (jobData acmeChecked) = true →
     knownApplications acmeChecked !! key = Some a →
     ∃ a', knownApplications state' !! key = Some a'
           ∧ status_history a' = status_history a ++ ["pending"]
           ∧ current_status a' = Some "pending"
           ∧ email_count a' = email_count a) ∧
  (∀ k, k ≠ key → knownApplications state' !! k = knownApplications acmeChecked !! k) ∧
  (truthy (jobData acmeChecked) = false ∨ knownApplications acmeChecked !! key = None →
     knownApplications state' = knownApplications acmeChecked).
Proof.
  split; [split; reflexivity|].
  apply (status_failure_records_pending silentWorld acmeChecked readyWorker);
    reflexivity.
Defined.

(** The only path of the step that appends nothing while an entry exists:
    [determineStatus] throws because the worker is not initialized; the
    outcome then reports unknown, not pending. *)
Lemma status_throw_reports_unknown (O : Outside) (state : ApplicationState)
    (w : WebLLMWorker) :
  isInitialized w = false →
  let state' := (determineStatusNode O state w).1 in
  applicationStatus state' = Some "unknown" ∧
  knownApplications state' = knownApplications state ∧
  errors state'
    = errors state ++ ["Status determination failed: WebLLM Worker not initialized"].
Proof.
  intros Hinit. unfold determineStatusNode, determineStatus. by rewrite Hinit.
Qed.

(** ** Classify and the branch to Finalize *)

(** Counterexample to C6 as stated: the classify request of an email times
    out; the run ends with isJobRelated = false, but the email's error list
    is empty. *)
Lemma classify_timeout_leaves_no_error :
  classifyAnswerFailed
    (awaitPostMessage silentWorld readyWorker
       (classifyRequestOf (initialState (mail "m1" "2024-01-01") ∅))).1 = true ∧
  r_isJobRelated timedOutResult = false ∧
  processingErrors timedOutResult = [] ∧
  ¬ (processingErrors timedOutResult ≠ []).
Proof.
  split; [reflexivity|]. split; [reflexivity|]. split; [reflexivity|].
  intros H. apply H. reflexivity.
Qed.

(** C6, amended.  With an initialized worker, when the classify request is
    rejected or resolves with anything but true / YES, the stages before
    Finalize end right after Classify: isJobRelated is false, the stage is
    finalizeResult, the only request posted for the email is the classify
    request (no extraction request, no status request), job data, status and
    registry are untouched, and the error list is NOT extended. *)
Theorem classify_failure_short_circuits (O : Outside) (state : ApplicationState)
    (w : WebLLMWorker) :
  isInitialized w = true →
  classifyAnswerFailed (awaitPostMessage O w (classifyRequestOf state)).1 = true →
  let state' := (runStages O state w).1 in
  let w' := (runStages O state w).2 in
  isJobRelated state' = Some false ∧
  processingStage state' = "finalizeResult" ∧
  w' = (awaitPostMessage O w (classifyRequestOf state)).2 ∧
  jobData state' = jobData state ∧
  isFirstInstance state' = isFirstInstance state ∧
  applicationStatus state' = applicationStatus state ∧
  knownApplications state' = knownApplications state ∧
  errors state' = errors state.
Proof.
  intros Hinit Hfail. unfold runStages, classifyEmailNode, classify, classifyRequestOf in *.
  rewrite Hinit. simpl.
  destruct (awaitPostMessage O w _) as [[v|msg] w1]; simpl in *.
  - apply negb_true_iff in Hfail. rewrite Hfail. simpl. done.
  - done.
Qed.

Lemma classify_failure_short_circuits_witness :
  (isInitialized readyWorker = true ∧
   classifyAnswerFailed
     (awaitPostMessage silentWorld readyWorker
        (classifyRequestOf (initialState (mail "m1" "2024-01-01") ∅))).1 = true) ∧
  let state := initialState (mail "m1" "2024-01-01") ∅ in
  let state' := (runStages silentWorld state readyWorker).1 in
  let w' := (runStages silentWorld state readyWorker).2 in
  isJobRelated state' = Some false ∧
  processingStage state' = "finalizeResult" ∧
  w' = (awaitPostMessage silentWorld readyWorker (classifyRequestOf state)).2 ∧
  jobData state' = jobData state ∧
  isFirstInstance state' = isFirstInstance state ∧
  applicationStatus state' = applicationStatus state ∧
  knownApplications state' = knownApplications state ∧
  errors state' = errors state.
Proof.
  split; [split; reflexivity|].
  apply (classify_failure_short_circuits silentWorld
           (initialState (mail "m1" "2024-01-01") ∅) readyWorker);
    reflexivity.
Defined.

(** The error list grows in Classify only when [classify] throws, that is
    when the worker is not initialized; no request is posted then. *)
Lemma classify_throw_records_error (O : Outside) (state : ApplicationState)
    (w : WebLLMWorker) :
  isInitialized w = false →
  runStages O state w =
  ({| email := email state; isJobRelated := Some false; jobData := jobData state;
      isFirstInstance := isFirstInstance state;
      applicationStatus := applicationStatus state;
      knownApplications := knownApplications state;
      processingStage := "finalizeResult";
      errors := errors state ++ ["Classification failed: WebLLM Worker not initialized"] |},
   w).
Proof.
  intros Hinit. unfold runStages, classifyEmailNode, classify. by rewrite Hinit.
Qed.

(** ** The application key *)

(** Counterexample to C5 as stated: after the Acme / Engineer scenario the
    registry has no entry under acme_engineer; the entry is under
    Acme_Engineer and its history has three elements, not the two of the
    claim. *)
Lemma acme_entry_is_not_under_lowercase_key :
  is_ok (runChronologically acmeWorld acmeEmails readyRuntime).1 = true ∧
  acmeRegistry !! "acme_engineer" = None ∧
  status_history <$> acmeRegistry !! "Acme_Engineer"
    = Some ["applied"; "applied"; "interview_scheduled"] ∧
  status_history <$> acmeRegistry !! "Acme_Engineer"
    ≠ Some ["applied"; "interview_scheduled"].
Proof.
  split; [vm_compute; reflexivity|]. split; [vm_compute; reflexivity|].
  assert (H : status_history <$> acmeRegistry !! "Acme_Engineer"
              = Some ["applied"; "applied"; "interview_scheduled"])
    by (vm_compute; reflexivity).
  split; [exact H|]. rewrite H. discriminate.
Qed.

Lemma appKey_of_job (company title : string) :
  appKey (job company title)
  = company +:+ "_" +:+ (if str_truthy title then title else "unknown").
Proof. reflexivity. Qed.

(** C5, amended.  The application key is a function of the extracted
    company name and title only; it is the company name, an underscore and
    the title, with unknown in place of a missing, null or empty title, and
    it keeps the letter case of both.  In the two-email Acme / Engineer
    scenario the outcomes report is_first_instance true then false, and the
    registry entry is stored under Acme_Engineer with email_count 2 and
    status_history [applied, applied, interview_scheduled]: the applied the
    entry is created with, then the status determined for each email. *)
Theorem appKey_keeps_case_acme_scenario :
  (∀ jd1 jd2, company_name jd1 = company_name jd2 → job_title jd1 = job_title jd2 →
     appKey jd1 = appKey jd2) ∧
  (∀ jd, field_truthy (job_title jd) = false →
     appKey jd = field_to_string (company_name jd) +:+ "_unknown") ∧
  (∀ company title, str_truthy title = true →
     appKey (job company title) = company +:+ "_" +:+ title) ∧
  appKey (job "Acme" "Engineer") = "Acme_Engineer" ∧
  appKey (job "acme" "engineer") = "acme_engineer" ∧
  is_ok (runChronologically acmeWorld acmeEmails readyRuntime).1 = true ∧
  emailId <$> acmeResults = ["m1"; "m2"] ∧
  r_isFirstInstance <$> acmeResults = [true; false] ∧
  r_applicationStatus <$> acmeResults = ["applied"; "interview_scheduled"] ∧
  map_to_list acmeRegistry =
    [("Acme_Engineer",
      {| a_job := job "Acme" "Engineer"; first_seen := "2024-01-01";
         status_history := ["applied"; "applied"; "interview_scheduled"];
         current_status := Some "interview_scheduled";
         email_count := 2; last_updated := None |})].
Proof.
  split; [|split; [|split]].
  - intros jd1 jd2 Hc Ht. unfold appKey. by rewrite Hc, Ht.
  - intros jd Ht. unfold appKey, field_or.
    destruct (job_title jd) as [| |t]; simpl in *; [done|done|]. by rewrite Ht.
  - intros company title Ht. rewrite appKey_of_job. by rewrite Ht.
  - repeat split; vm_compute; reflexivity.
Qed.

(** ** Processing order inside one batch *)

Section Order.
Context (O : Outside).

Lemma compareDates_antisym a b : compareDates O b a = - compareDates O a b.
Proof.
  unfold compareDates.
  destruct (getTime O (date a)) as [ta|], (getTime O (date b)) as [tb|]; lia.
Qed.

Lemma compareDates_trans a b c :
  is_Some (getTime O (date b)) →
  compareDates O a b ≤ 0 → compareDates O b c ≤ 0 → compareDates O a c ≤ 0.
Proof.
  unfold compareDates. intros [tb ->].
  destruct (getTime O (date a)) as [ta|], (getTime O (date c)) as [tc|]; lia.
Qed.

Lemma insertByDate_perm e l : insertByDate O e l ≡ₚ e :: l.
Proof.
  induction l as [|x l IH]; simpl; [done|].
  destruct (_ <=? 0); [done|]. rewrite IH. apply Permutation_swap.
Qed.

Lemma insertion_perm emails : foldr (insertByDate O) [] emails ≡ₚ emails.
Proof.
  induction emails as [|e l IH]; simpl; [done|].
  rewrite insertByDate_perm. by rewrite IH.
Qed.

Lemma insertByRank_perm e l : insertByRank e l ≡ₚ e :: l.
Proof.
  induction l as [|x l IH]; simpl; [done|].
  destruct (_ <=? 0); [done|]. rewrite IH. apply Permutation_swap.
Qed.

Lemma ranked_emails (ranks : nat → Z) (emails : list EmailData) :
  (imap (λ i e, (ranks i, e)) emails).*2 = emails.
Proof.
  revert ranks. induction emails as [|e l IH]; intros ranks; [done|].
  rewrite imap_cons, fmap_cons. simpl. f_equal. apply (IH (ranks ∘ S)).
Qed.

Lemma engineSort_perm emails : engineSort O emails ≡ₚ emails.
Proof.
  unfold engineSort.
  set (ranked := imap _ emails).
  assert (H : foldr insertByRank [] ranked ≡ₚ ranked).
  { induction ranked as [|x l IH]; simpl; [done|].
    rewrite insertByRank_perm. by rewrite IH. }
  rewrite H. unfold ranked.
  by rewrite (ranked_emails (λ i, nth i (sortRanks O (date <$> emails)) 0)).
Qed.

(** Whatever the dates, the sort only rearranges the emails. *)
Lemma sortByDate_perm emails : sortByDate O emails ≡ₚ emails.
Proof.
  unfold sortByDate. destruct (consistentDates O emails).
  - apply insertion_perm.
  - apply engineSort_perm.
Qed.

Lemma sortByDate_parsed emails :
  datesParse O emails = true → sortByDate O emails = foldr (insertByDate O) [] emails.
Proof. intros H. unfold sortByDate, consistentDates. by rewrite H. Qed.

Lemma datesParse_Forall emails :
  datesParse O emails = true ↔ Forall (λ e, is_Some (getTime O (date e))) emails.
Proof.
  unfold datesParse. rewrite forallb_forall, Forall_forall. split.
  - intros H e He. apply list_elem_of_In in He. specialize (H e He).
    by apply bool_decide_eq_true in H.
  - intros H e He. apply bool_decide_eq_true, H. by apply list_elem_of_In.
Qed.

Lemma insertByDate_sorted e l :
  Forall (λ x, is_Some (getTime O (date x))) (e :: l) →
  StronglySorted (notLater O) l → StronglySorted (notLater O) (insertByDate O e l).
Proof.
  intros Hparse Hs. induction Hs as [|x l Hs IH Hall]; simpl.
  - repeat constructor.
  - apply Forall_cons in Hparse as [He Hparse].
    apply Forall_cons in Hparse as [Hx Hl].
    destruct (compareDates O e x <=? 0) eqn:E.
    + apply Z.leb_le in E. constructor; [by constructor|].
      constructor; [done|].
      eapply Forall_impl; [exact Hall|]. intros y Hy. simpl in Hy.
      by apply (compareDates_trans e x y).
    + apply Z.leb_gt in E. constructor.
      * apply IH. by constructor.
      * rewrite insertByDate_perm. constructor; [|done].
        unfold notLater. rewrite compareDates_antisym. lia.
Qed.

Lemma insertion_sorted emails :
  Forall (λ x, is_Some (getTime O (date x))) emails →
  StronglySorted (notLater O) (foldr (insertByDate O) [] emails).
Proof.
  induction 1 as [|e l He Hl IH]; simpl; [constructor|].
  apply insertByDate_sorted; [|done].
  constructor; [done|]. by rewrite insertion_perm.
Qed.

(** Stability: emails with the same parsed date keep their submitted order. *)
Lemma insertByDate_filter t e l :
  filter (λ x, getTime O (date x) = t) (insertByDate O e l)
  = filter (λ x, getTime O (date x) = t) (e :: l).
Proof.
  induction l as [|x l IH]; simpl; [done|].
  destruct (compareDates O e x <=? 0) eqn:E; [done|].
  apply Z.leb_gt in E.
  rewrite (filter_cons _ x), IH, !(filter_cons _ e), (filter_cons _ x).
  repeat case_decide; try done.
  unfold compareDates in E. subst t. rewrite H0 in E.
  destruct (getTime O (date x)); lia.
Qed.

Lemma insertion_stable t emails :
  filter (λ x, getTime O (date x) = t) (foldr (insertByDate O) [] emails)
  = filter (λ x, getTime O (date x) = t) emails.
Proof.
  induction emails as [|e l IH]; simpl; [done|].
  rewrite insertByDate_filter, !filter_cons, IH. done.
Qed.

(** A list whose neighbours are in order is left as it is. *)
Lemma insertion_ascending emails :
  Sorted (notLater O) emails → foldr (insertByDate O) [] emails = emails.
Proof.
  induction 1 as [|e l Hs IH Hhd]; simpl; [done|].
  rewrite IH. destruct Hhd as [|x l Hex]; simpl; [done|].
  unfold notLater in Hex.
  destruct (compareDates O e x <=? 0) eqn:E; [done|].
  apply Z.leb_gt in E. lia.
Qed.

(** When all dates compare equal (no date parses, say) nothing moves. *)
Lemma sortByDate_equal_dates emails :
  datesCompareEqual O emails = true → sortByDate O emails = emails.
Proof.
  intros H. unfold sortByDate, consistentDates. rewrite H, orb_true_r.
  apply insertion_ascending.
  unfold datesCompareEqual in H. rewrite forallb_forall in H.
  assert (Hall : ∀ a b, a ∈ emails → b ∈ emails → compareDates O a b = 0).
  { intros a b Ha Hb. apply list_elem_of_In in Ha, Hb.
    specialize (H a Ha). rewrite forallb_forall in H.
    specialize (H b Hb). by apply bool_decide_eq_true in H. }
  clear H. induction emails as [|e l IH]; [constructor|].
  constructor.
  - apply IH. intros a b Ha Hb. apply Hall; by right.
  - destruct l as [|x l]; constructor. unfold notLater.
    rewrite (Hall e x); [done|by left|by right; left].
Qed.

Lemma processEmail_emailId e known rt : emailId (processEmail O e known rt).1.1 = id e.
Proof.
  unfold processEmail.
  destruct (invoke O _ rt) as [[[finalState|msg] known'] rt']; [|done].
  by destruct (updateKnownApplications O _ _) as [[u|msg] sm].
Qed.

Lemma processLoop_emailIds l known rt acc :
  emailId <$> (processLoop O l known rt acc).1.1 = (emailId <$> acc) ++ (id <$> l).
Proof.
  revert known rt acc. induction l as [|e l IH]; intros known rt acc; simpl.
  - by rewrite app_nil_r.
  - pose proof (processEmail_emailId e known rt) as He.
    destruct (processEmail O e known rt) as [[r known'] rt']. simpl in He.
    rewrite IH, fmap_app. simpl. rewrite He, <- app_assoc. done.
Qed.

Lemma processLoop_results l known rt acc :
  ∃ rs, (processLoop O l known rt acc).1.1 = acc ++ rs ∧ length rs = length l.
Proof.
  revert known rt acc. induction l as [|e l IH]; intros known rt acc; simpl.
  - exists []. by rewrite app_nil_r.
  - destruct (processEmail O e known rt) as [[r known'] rt'].
    destruct (IH known' rt' (acc ++ [r])) as (rs & -> & Hlen).
    exists (r :: rs). rewrite <- app_assoc. simpl. by rewrite Hlen.
Qed.

Lemma processLoop_foldl l known rt acc :
  processLoop O l known rt acc = foldl (stepEmail O) (acc, known, rt) l.
Proof.
  revert known rt acc. induction l as [|e l IH]; intros known rt acc; simpl; [done|].
  unfold stepEmail at 2. simpl.
  destruct (processEmail O e known rt) as [[r known'] rt']. apply IH.
Qed.

End Order.

(** Counterexample to C4 as stated: the two Acme emails submitted latest
    first are processed earliest first; the outcomes come back in the
    re-sorted order, and the entry is created by the email submitted second. *)
Lemma latest_first_submission_is_resorted :
  is_ok (runChronologically acmeWorld acmeEmailsReversed readyRuntime).1 = true ∧
  id <$> acmeEmailsReversed = ["m2"; "m1"] ∧
  emailId <$> reversedResults = ["m1"; "m2"] ∧
  r_isFirstInstance <$> reversedResults = [true; false] ∧
  first_seen <$> reversedRegistry !! "Acme_Engineer" = Some "2024-01-01" ∧
  emailId <$> reversedResults ≠ id <$> acmeEmailsReversed.
Proof.
  assert (H : emailId <$> reversedResults = ["m1"; "m2"]) by (vm_compute; reflexivity).
  split; [vm_compute; reflexivity|]. split; [reflexivity|]. split; [exact H|].
  split; [vm_compute; reflexivity|]. split; [vm_compute; reflexivity|].
  rewrite H. discriminate.
Qed.

(** C4, amended.  When the registry loads, the batch driver first sorts the
    submitted list with the date comparator and then processes the emails
    one after the other in the sorted order, each on the registry and
    processor state left by the emails sorted before it; the outcomes are
    returned in that order: the outcome at a position is the one of the
    email sorted there, processed on what the emails sorted before it left.
    The sorted list is a rearrangement of the submitted one.  When every date parses it is ascending by parsed date
    and keeps emails of equal date in their submitted order (a stable
    sort); if moreover the list was submitted in ascending date order the
    sort changes nothing, so that the processing order is the submission
    order.  When all dates compare equal (no date parses, say) the order is
    the submitted one as well. *)
Theorem batch_processed_in_date_order (O : Outside) (emails : list EmailData)
    (rt : Runtime) :
  db (manager rt) = true → txFails O (txCount (manager rt)) = false →
  let rt0 := {| llm := llm rt;
                manager := {| db := true; store := store (manager rt);
                              txCount := S (txCount (manager rt)) |} |} in
  let known := store (manager rt) in
  ∃ results registry rt',
    runChronologically O emails rt = (Ok (results, registry), rt') ∧
    foldl (stepEmail O) ([], known, rt0) (sortByDate O emails) = (results, registry, rt') ∧
    (∀ l1 e l2, sortByDate O emails = l1 ++ e :: l2 →
       ∃ acc1 known1 rt1,
         foldl (stepEmail O) ([], known, rt0) l1 = (acc1, known1, rt1) ∧
         length acc1 = length l1 ∧
         results !! length l1 = Some (processEmail O e known1 rt1).1.1) ∧
    emailId <$> results = id <$> sortByDate O emails ∧
    sortByDate O emails ≡ₚ emails ∧
    (datesParse O emails = true →
       StronglySorted (notLater O) (sortByDate O emails) ∧
       (∀ t, filter (λ x, getTime O (date x) = t) (sortByDate O emails)
             = filter (λ x, getTime O (date x) = t) emails) ∧
       (Sorted (notLater O) emails →
          sortByDate O emails = emails ∧ emailId <$> results = id <$> emails)) ∧
    (datesCompareEqual O emails = true →
       sortByDate O emails = emails ∧ emailId <$> results = id <$> emails).
Proof.
  intros Hdb Htx rt0 known.
  pose proof (processLoop_emailIds O (sortByDate O emails) known rt0 []) as Hids.
  pose proof (processLoop_foldl O (sortByDate O emails) known rt0 []) as Hfold.
  assert (Hrun : runChronologically O emails rt
                 = (Ok (processLoop O (sortByDate O emails) known rt0 []).1,
                    (processLoop O (sortByDate O emails) known rt0 []).2)).
  { unfold runChronologically, getKnownApplications. rewrite Hdb, Htx. simpl.
    fold rt0 known. by destruct (processLoop O _ _ _ _) as [[results known'] rt']. }
  destruct (processLoop O (sortByDate O emails) known rt0 []) as [[results registry] rt'] eqn:E.
  simpl in Hrun, Hids. exists results, registry, rt'.
  split; [done|]. split; [done|]. split.
  { intros l1 e l2 Hsplit. rewrite Hsplit, foldl_app in Hfold. cbn [foldl] in Hfold.
    rewrite <- (processLoop_foldl O l1) in Hfold |- *.
    destruct (processLoop_results O l1 known rt0 []) as (rs1 & Hrs1 & Hlen1).
    destruct (processLoop O l1 known rt0 []) as [[acc1 known1] rt1]. simpl in Hrs1.
    subst acc1. exists rs1, known1, rt1. split; [done|]. split; [done|].
    unfold stepEmail in Hfold at 2. simpl in Hfold.
    destruct (processEmail O e known1 rt1) as [[r known2] rt2].
    rewrite <- processLoop_foldl in Hfold.
    destruct (processLoop_results O l2 known2 rt2 (rs1 ++ [r])) as (rs2 & Hrs2 & _).
    rewrite <- Hfold in Hrs2. simpl in Hrs2. rewrite Hrs2, <- Hlen1, <- app_assoc.
    rewrite lookup_app_r by lia. by rewrite Nat.sub_diag. }
  split; [done|].
  split; [apply sortByDate_perm|]. split.
  - intros Hparse. rewrite (sortByDate_parsed O emails Hparse) in *.
    split; [by apply insertion_sorted, datesParse_Forall|].
    split; [intros t; apply insertion_stable|].
    intros Hasc. pose proof (insertion_ascending O emails Hasc) as Hsame.
    split; [done|]. by rewrite Hids, Hsame.
  - intros Heq. pose proof (sortByDate_equal_dates O emails Heq) as Hsame.
    split; [done|]. by rewrite Hids, Hsame.
Qed.

Lemma batch_processed_in_date_order_witness :
  (db (manager readyRuntime) = true ∧
   txFails acmeWorld (txCount (manager readyRuntime)) = false) ∧
  let rt0 := {| llm := llm readyRuntime;
                manager := {| db := true; store := store (manager readyRuntime);
                              txCount := S (txCount (manager readyRuntime)) |} |} in
  let known := store (manager readyRuntime) in
  ∃ results registry rt',
    runChronologically acmeWorld acmeEmails readyRuntime = (Ok (results, registry), rt') ∧
    foldl (stepEmail acmeWorld) ([], known, rt0) (sortByDate acmeWorld acmeEmails)
      = (results, registry, rt') ∧
    (∀ l1 e l2, sortByDate acmeWorld acmeEmails = l1 ++ e :: l2 →
       ∃ acc1 known1 rt1,
         foldl (stepEmail acmeWorld) ([], known, rt0) l1 = (acc1, known1, rt1) ∧
         length acc1 = length l1 ∧
         results !! length l1 = Some (processEmail acmeWorld e known1 rt1).1.1) ∧
    emailId <$> results = id <$> sortByDate acmeWorld acmeEmails ∧
    sortByDate acmeWorld acmeEmails ≡ₚ acmeEmails ∧
    (datesParse acmeWorld acmeEmails = true →
       StronglySorted (notLater acmeWorld) (sortByDate acmeWorld acmeEmails) ∧
       (∀ t, filter (λ x, getTime acmeWorld (date x) = t) (sortByDate acmeWorld acmeEmails)
             = filter (λ x, getTime acmeWorld (date x) = t) acmeEmails) ∧
       (Sorted (notLater acmeWorld) acmeEmails →
          sortByDate acmeWorld acmeEmails = acmeEmails
          ∧ emailId <$> results = id <$> acmeEmails)) ∧
    (datesCompareEqual acmeWorld acmeEmails = true →
       sortByDate acmeWorld acmeEmails = acmeEmails
       ∧ emailId <$> results = id <$> acmeEmails).
Proof.
  split; [split; reflexivity|].
  apply (batch_processed_in_date_order acmeWorld acmeEmails readyRuntime); reflexivity.
Defined.

(** The dates of the Acme emails parse. *)
Example acmeEmails_parse : datesParse acmeWorld acmeEmails = true.
Proof. vm_compute. reflexivity. Qed.

(** An email without Date header between two dated ones: the comparator is
    not consistent, and the batch is processed in the order the engine
    leaves (here: as submitted), which is not the date order. *)
Example unparsed_date_leaves_engine_order :
  consistentDates acmeWorld undatedEmails = false ∧
  id <$> sortByDate acmeWorld undatedEmails = ["m1"; "m2"; "m3"] ∧
  emailId <$> undatedResults = ["m1"; "m2"; "m3"].
Proof. repeat split; vm_compute; reflexivity. Qed.

(** The Acme emails are submitted in ascending order, so the hypothesis of
    the last part holds for them. *)
Example acmeEmails_ascending : Sorted (notLater acmeWorld) acmeEmails.
Proof.
  repeat constructor. unfold notLater. vm_compute. discriminate.
Qed.

(** ** The batch orchestrator *)




Lemma batchLoop_uncancelled O emails total ks o :
  Forall (λ k, aborted O k = false) ks →
  batchLoop O emails total ks o =
  (Ok (results (afterBatches O emails total ks o)), afterBatches O emails total ks o).
Proof.
  intros H. revert o. induction H as [|k ks Hk _ IH]; intros o; simpl; [done|].
  rewrite Hk. apply IH.
Qed.









Lemma processEmailsWithAI_loop O emails rt p :
  processEmailsWithAI O emails (Some rt) p =
  let '(r, o) := batchLoop O emails (ceilDiv (length emails) WEBLLM_BATCH_SIZE)
                   (seq 0 (ceilDiv (length emails) WEBLLM_BATCH_SIZE))
                   (loopEntry emails rt p) in
  (r, Some o).
Proof. reflexivity. Qed.









(** In that run the save of the first email is rejected: its outcome is the
    error record, and the second email is processed all the same, on the
    entry the first one left in memory. *)
Example rejected_save_does_not_end_the_run :
  match processEmailsWithAI failingSaveWorld acmeEmails (Some stockedRuntime) freshProgress with
  | (Ok rs, _) =>
      emailId <$> rs = ["m1"; "m2"] ∧
      r_applicationStatus <$> rs = ["error"; "interview_scheduled"] ∧
      processingErrors <$> rs = [["QuotaExceededError"]; []] ∧
      r_isFirstInstance <$> rs = [false; false]
  | (Throw _, _) => False
  end.
Proof. vm_compute. repeat split; reflexivity. Qed.




(** * Further properties of the code *)

(** ** Adapter and worker code *)

Lemma validate_status_valid (v : JsValue) : validate_status v ∈ validStatuses.
Proof.
  assert (Hp : "pending" ∈ validStatuses) by (unfold validStatuses; set_solver).
  destruct v; simpl; try done. case_bool_decide; done.
Qed.

Lemma validate_status_keeps (s : string) :
  s ∈ validStatuses → validate_status (VStr s) = s.
Proof. intros H. simpl. by rewrite bool_decide_eq_true_2. Qed.

(** X1.  With an initialized worker [determineStatus] returns, and what it
    returns is always one of the nine statuses of its enumeration, whatever
    the worker answered; an answer that is in the enumeration is returned as
    it is. *)
Theorem determineStatus_stays_in_enumeration (O : Outside) (w : WebLLMWorker)
    (emailContent emailSubject : string) :
  isInitialized w = true →
  ∃ status,
    (determineStatus O w emailContent emailSubject).1 = Ok status ∧
    status ∈ validStatuses ∧
    (∀ s, (awaitPostMessage O w (statusRequest emailContent emailSubject)).1
            = Resolved (VStr s) →
          s ∈ validStatuses → status = s).
Proof.
  intros Hinit. rewrite (determineStatus_initialized O w _ _ Hinit).
  eexists. split; [done|]. split.
  - destruct (awaitPostMessage O w _).1 as [v|msg]; [apply validate_status_valid|].
    unfold validStatuses. set_solver.
  - intros s Hs Hin. rewrite Hs. by apply validate_status_keeps.
Qed.

Lemma determineStatus_stays_in_enumeration_witness :
  isInitialized readyWorker = true ∧
  ∃ status,
    (determineStatus acmeWorld readyWorker "Content" "Subject").1 = Ok status ∧
    status ∈ validStatuses ∧
    (∀ s, (awaitPostMessage acmeWorld readyWorker (statusRequest "Content" "Subject")).1
            = Resolved (VStr s) →
          s ∈ validStatuses → status = s).
Proof.
  split; [reflexivity|].
  apply (determineStatus_stays_in_enumeration acmeWorld readyWorker "Content" "Subject").
  reflexivity.
Defined.

Lemma workerStatus_found (toLowerCase : string → string) (content : string) :
  ∃ s, workerStatus toLowerCase content = VStr s ∧ s ∈ workerValidStatuses.
Proof.
  unfold workerStatus.
  destruct (List.find _ workerValidStatuses) as [s|] eqn:E; simpl.
  - apply find_some in E as [Hin _]. apply list_elem_of_In in Hin.
    exists s. split; [|done].
    unfold workerValidStatuses in Hin.
    repeat (apply elem_of_cons in Hin as [->|Hin]; [done|]).
    by apply elem_of_nil in Hin.
  - exists "pending". split; [done|]. unfold workerValidStatuses. set_solver.
Qed.

(** X2.  The status branch of the worker answers with an element of the
    worker's own list, which spells the eighth status withdraw, while the
    adapter validates against withdrawn.  So, whatever the engine replied,
    the status the adapter makes of the worker's answer is that answer,
    except that withdraw becomes pending; and it is never withdrawn. *)
Theorem withdrawn_is_never_reported (toLowerCase : string → string) (content : string) :
  ∃ s, workerStatus toLowerCase content = VStr s ∧
    s ∈ workerValidStatuses ∧
    validate_status (workerStatus toLowerCase content)
      = (if bool_decide (s = "withdraw") then "pending" else s) ∧
    validate_status (workerStatus toLowerCase content) ≠ "withdrawn".
Proof.
  destruct (workerStatus_found toLowerCase content) as (s & Hs & Hin).
  exists s. rewrite Hs. split; [done|]. split; [done|].
  unfold workerValidStatuses in Hin.
  repeat (apply elem_of_cons in Hin as [->|Hin]; [by vm_compute|]).
  by apply elem_of_nil in Hin.
Qed.

Example withdrawal_reply_becomes_pending :
  workerStatus lowerString "I have decided to WITHDRAW my application." = VStr "withdraw" ∧
  validate_status (workerStatus lowerString "I have decided to WITHDRAW my application.")
    = "pending".
Proof. split; vm_compute; reflexivity. Qed.

(** ** What a batch keeps of the registry *)

Lemma registryGrows_refl known : registryGrows known known.
Proof. intros k a Ha. exists a. repeat split; (done || lia). Qed.

Lemma registryGrows_trans k1 k2 k3 :
  registryGrows k1 k2 → registryGrows k2 k3 → registryGrows k1 k3.
Proof.
  intros H12 H23 k a Ha.
  destruct (H12 k a Ha) as (a2 & Ha2 & Hj & Hf & Hl & Hc & Hh).
  destruct (H23 k a2 Ha2) as (a3 & Ha3 & Hj' & Hf' & Hl' & Hc' & Hh').
  exists a3. split; [done|]. split; [congruence|]. split; [congruence|].
  split; [congruence|]. split; [lia|]. by etrans.
Qed.

Lemma registryGrows_update known k a a' :
  known !! k = Some a →
  a_job a' = a_job a → first_seen a' = first_seen a → last_updated a' = last_updated a →
  email_count a ≤ email_count a' → status_history a `prefix_of` status_history a' →
  registryGrows known (<[k := a']> known).
Proof.
  intros Hk Hj Hf Hl Hc Hh k0 a0 Ha0. destruct (decide (k0 = k)) as [->|Hne].
  - rewrite Hk in Ha0. injection Ha0 as <-. exists a'. by rewrite lookup_insert_eq.
  - exists a0. rewrite lookup_insert_ne by done. repeat split; (done || lia).
Qed.

Lemma registryGrows_fresh known k a' :
  known !! k = None → registryGrows known (<[k := a']> known).
Proof.
  intros Hk k0 a0 Ha0. exists a0. rewrite lookup_insert_ne by congruence.
  repeat split; (done || lia).
Qed.

Lemma checkFirstInstanceNode_grows state :
  registryGrows (knownApplications state) (knownApplications (checkFirstInstanceNode state)).
Proof.
  destruct (checkFirstInstanceNode_cases state) as [->|[(a & E & ->)|(E & ->)]]; simpl.
  - apply registryGrows_refl.
  - apply (registryGrows_update _ _ a); simpl; [done|done|done|done| |done].
    unfold num_or. destruct (email_count a =? 0) eqn:Ez; [|lia].
    apply Z.eqb_eq in Ez. lia.
  - by apply registryGrows_fresh.
Qed.

Lemma recordStatus_grows data status known :
  registryGrows known (recordStatus data status known).
Proof.
  unfold recordStatus. destruct (truthy data); [|apply registryGrows_refl].
  destruct (known !! _) as [a|] eqn:E; [|apply registryGrows_refl].
  apply (registryGrows_update _ _ a); simpl;
    [done|done|done|done|lia|by apply prefix_app_r].
Qed.

Lemma determineStatusNode_grows O state w :
  registryGrows (knownApplications state) (knownApplications (determineStatusNode O state w).1).
Proof.
  unfold determineStatusNode.
  destruct (determineStatus O w _ _) as [[status|msg] w']; simpl.
  - apply recordStatus_grows.
  - apply registryGrows_refl.
Qed.

Lemma classifyEmailNode_registry O state w :
  knownApplications (classifyEmailNode O state w).1 = knownApplications state.
Proof.
  unfold classifyEmailNode. by destruct (classify O w _) as [[b|msg] w'].
Qed.

Lemma extractJobDataNode_registry O state w :
  knownApplications (extractJobDataNode O state w).1 = knownApplications state.
Proof.
  unfold extractJobDataNode. by destruct (extractJobData O w _) as [[v|msg] w'].
Qed.

Lemma runStages_grows O state w :
  registryGrows (knownApplications state) (knownApplications (runStages O state w).1).
Proof.
  unfold runStages.
  pose proof (classifyEmailNode_registry O state w) as H1.
  destruct (classifyEmailNode O state w) as [s1 w1]. simpl in H1.
  destruct (isJobRelated s1) as [[|]|];
    [|rewrite <- H1; apply registryGrows_refl..].
  pose proof (extractJobDataNode_registry O s1 w1) as H2.
  destruct (extractJobDataNode O s1 w1) as [s2 w2]. simpl in H2.
  rewrite <- H1, <- H2.
  eapply registryGrows_trans; [apply checkFirstInstanceNode_grows|].
  apply determineStatusNode_grows.
Qed.

(** Whatever happens to the saves, the registry the loop carries on with is
    the one the stages left. *)
Lemma processEmail_after_stages O e known rt :
  (processEmail O e known rt).1.2
    = knownApplications (runStages O (initialState e known) (llm rt)).1
  ∧ llm (processEmail O e known rt).2 = (runStages O (initialState e known) (llm rt)).2.
Proof.
  unfold processEmail, invoke.
  destruct (isInitialized (llm rt)) eqn:Hinit.
  - destruct (runStages O _ (llm rt)) as [s w].
    destruct (finalizeResultNode O s (manager rt)) as [[finalState|msg] sm] eqn:E; [|done].
    destruct (updateKnownApplications O _ _) as [[u|msg] sm']; done.
  - unfold runStages, classifyEmailNode, classify. by rewrite Hinit.
Qed.

Lemma processEmail_grows O e known rt :
  registryGrows known (processEmail O e known rt).1.2.
Proof.
  destruct (processEmail_after_stages O e known rt) as [-> _].
  apply (runStages_grows O (initialState e known)).
Qed.

Lemma processLoop_grows O emails known rt acc :
  registryGrows known (processLoop O emails known rt acc).1.2.
Proof.
  revert known rt acc. induction emails as [|e l IH]; intros known rt acc; simpl.
  - apply registryGrows_refl.
  - pose proof (processEmail_grows O e known rt) as He.
    destruct (processEmail O e known rt) as [[r known'] rt']. simpl in He.
    eapply registryGrows_trans; [exact He|apply IH].
Qed.

(** X3.  A batch never removes or rewrites what the registry knew: every
    entry loaded at the start of [processEmailsChronologically] is still
    there at the end under the same key, with the same job record and
    first_seen, an email_count that did not decrease, and a status_history
    that has the old history as a prefix.  This holds for every worker
    behaviour and every pattern of failing saves. *)
Theorem batch_only_extends_registry (O : Outside) (emails : list EmailData) (rt : Runtime) :
  match (runChronologically O emails rt).1 with
  | Ok (_, registry) => registryGrows (store (manager rt)) registry
  | Throw _ => True
  end.
Proof.
  unfold runChronologically, getKnownApplications.
  destruct (db (manager rt)); simpl; [|done].
  destruct (txFails O _); simpl; [done|].
  pose proof (processLoop_grows O (sortByDate O emails) (store (manager rt))
    {| llm := llm rt;
       manager := {| db := true; store := store (manager rt);
                     txCount := S (txCount (manager rt)) |} |} []) as H.
  destruct (processLoop O _ _ _ _) as [[results known'] rt']. done.
Qed.

(** ** Requests posted for an email *)

Lemma checkFirstInstanceNode_email state :
  email (checkFirstInstanceNode state) = email state.
Proof.
  by destruct (checkFirstInstanceNode_cases state) as [->|[(a & _ & ->)|(_ & ->)]].
Qed.

Lemma classifyEmailNode_posts O state w :
  isInitialized w = true → w_worker w = true →
  (classifyEmailNode O state w).2 = posted w (classifyRequestOf state) ∧
  email (classifyEmailNode O state w).1 = email state ∧
  isJobRelated (classifyEmailNode O state w).1
    = Some (negb (classifyAnswerFailed
                    (respond O (length (sent w)) (classifyRequestOf state)))).
Proof.
  intros Hinit Hw.
  unfold classifyEmailNode, classify, classifyRequestOf, awaitPostMessage,
    classifyAnswerFailed, posted.
  rewrite Hinit, Hw. simpl.
  destruct (respond O (length (sent w)) _) as [v|msg]; simpl; [|done].
  by rewrite negb_involutive.
Qed.

Lemma extractJobDataNode_posts O state w :
  isInitialized w = true → w_worker w = true →
  (extractJobDataNode O state w).2 = posted w (extractRequest (extractContent (email state))) ∧
  email (extractJobDataNode O state w).1 = email state ∧
  isJobRelated (extractJobDataNode O state w).1 = isJobRelated state.
Proof.
  intros Hinit Hw.
  unfold extractJobDataNode, extractJobData, awaitPostMessage, posted.
  rewrite Hinit, Hw. simpl.
  by destruct (respond O (length (sent w)) _) as [v|msg].
Qed.

Lemma determineStatusNode_posts O state w :
  isInitialized w = true → w_worker w = true →
  (determineStatusNode O state w).2 = posted w (statusRequestOf state) ∧
  email (determineStatusNode O state w).1 = email state ∧
  isJobRelated (determineStatusNode O state w).1 = isJobRelated state.
Proof.
  intros Hinit Hw.
  unfold determineStatusNode, determineStatus, statusRequestOf, awaitPostMessage, posted.
  rewrite Hinit, Hw. simpl.
  by destruct (respond O (length (sent w)) _) as [v|msg].
Qed.

Lemma checkFirstInstanceNode_isJobRelated state :
  isJobRelated (checkFirstInstanceNode state) = isJobRelated state.
Proof.
  by destruct (checkFirstInstanceNode_cases state) as [->|[(a & _ & ->)|(_ & ->)]].
Qed.

Lemma runStages_requests O state w :
  isInitialized w = true → w_worker w = true →
  let state' := (runStages O state w).1 in
  let w' := (runStages O state w).2 in
  isInitialized w' = true ∧ w_worker w' = true ∧
  email state' = email state ∧
  if classifyAnswerFailed (respond O (length (sent w)) (classifyRequestOf state)) then
    isJobRelated state' = Some false ∧ sent w' = sent w ++ [classifyRequestOf state]
  else
    isJobRelated state' = Some true ∧
    sent w' = sent w ++ [classifyRequestOf state;
                         extractRequest (extractContent (email state));
                         statusRequestOf state].
Proof.
  intros Hinit Hw. unfold runStages.
  destruct (classifyEmailNode_posts O state w Hinit Hw) as (Hw1 & He1 & Hj1).
  destruct (classifyEmailNode O state w) as [s1 w1]. simpl in Hw1, He1, Hj1.
  rewrite Hj1. subst w1.
  destruct (classifyAnswerFailed _); simpl; [done|].
  destruct (extractJobDataNode_posts O s1 (posted w (classifyRequestOf state))
              eq_refl eq_refl) as (Hw2 & He2 & Hj2).
  destruct (extractJobDataNode O s1 _) as [s2 w2]. simpl in Hw2, He2, Hj2. subst w2.
  destruct (determineStatusNode_posts O (checkFirstInstanceNode s2)
              (posted (posted w (classifyRequestOf state))
                 (extractRequest (extractContent (email s1))))
              eq_refl eq_refl) as (Hw3 & He3 & Hj3).
  rewrite Hw3, He3, Hj3, checkFirstInstanceNode_email, checkFirstInstanceNode_isJobRelated.
  rewrite He2, Hj2, Hj1, He1. simpl.
  unfold statusRequestOf. rewrite checkFirstInstanceNode_email, He2, He1.
  rewrite <- !app_assoc. done.
Qed.

Lemma processEmail_requests O e known rt :
  isInitialized (llm rt) = true → w_worker (llm rt) = true →
  isInitialized (llm (processEmail O e known rt).2) = true ∧
  w_worker (llm (processEmail O e known rt).2) = true ∧
  kinds (llm (processEmail O e known rt).2) = kinds (llm rt) ++
    (if classifyAnswerFailed
          (respond O (length (sent (llm rt))) (classifyRequest (classifyContent e)))
     then [MClassify] else [MClassify; MExtract; MStatus]).
Proof.
  intros Hinit Hw.
  destruct (processEmail_after_stages O e known rt) as [_ ->].
  destruct (runStages_requests O (initialState e known) (llm rt) Hinit Hw)
    as (Hi & Hp & _ & Hsent).
  split; [done|]. split; [done|]. unfold kinds.
  change (classifyRequestOf (initialState e known))
    with (classifyRequest (classifyContent e)) in Hsent.
  destruct (classifyAnswerFailed _); destruct Hsent as [_ ->];
    by rewrite fmap_app.
Qed.

(** X4.  With an initialized worker, one email costs exactly one request
    (classify) when the classify answer is not a yes, and exactly three
    (classify, extract, status, in this order) when it is; extraction and
    status are never requested without a yes before them, and nothing else
    is ever posted. *)
Theorem email_posts_one_or_three_requests (O : Outside) (e : EmailData)
    (known : gmap string AppEntry) (rt : Runtime) :
  isInitialized (llm rt) = true → w_worker (llm rt) = true →
  let w' := llm (processEmail O e known rt).2 in
  isInitialized w' = true ∧ w_worker w' = true ∧
  kinds w' = kinds (llm rt) ++
    (if classifyAnswerFailed
          (respond O (length (sent (llm rt))) (classifyRequest (classifyContent e)))
     then [MClassify] else [MClassify; MExtract; MStatus]).
Proof.
  intros Hinit Hw w'. subst w'.
  destruct (processEmail_after_stages O e known rt) as [_ ->].
  destruct (runStages_requests O (initialState e known) (llm rt) Hinit Hw)
    as (Hi & Hp & _ & Hsent).
  split; [done|]. split; [done|]. unfold kinds.
  change (classifyRequestOf (initialState e known))
    with (classifyRequest (classifyContent e)) in Hsent.
  destruct (classifyAnswerFailed _); destruct Hsent as [_ ->];
    by rewrite fmap_app.
Qed.

Lemma email_posts_one_or_three_requests_witness :
  (isInitialized (llm readyRuntime) = true ∧ w_worker (llm readyRuntime) = true) ∧
  let w' := llm (processEmail acmeWorld (mail "m1" "2024-01-01") ∅ readyRuntime).2 in
  isInitialized w' = true ∧ w_worker w' = true ∧
  kinds w' = kinds (llm readyRuntime) ++
    (if classifyAnswerFailed
          (respond acmeWorld (length (sent (llm readyRuntime)))
             (classifyRequest (classifyContent (mail "m1" "2024-01-01"))))
     then [MClassify] else [MClassify; MExtract; MStatus]).
Proof.
  split; [split; reflexivity|].
  apply (email_posts_one_or_three_requests acmeWorld (mail "m1" "2024-01-01") ∅
           readyRuntime); reflexivity.
Defined.

Lemma processLoop_requests O emails known rt acc :
  isInitialized (llm rt) = true → w_worker (llm rt) = true →
  let w' := llm (processLoop O emails known rt acc).2 in
  (length (sent (llm rt)) + length emails ≤ length (sent w')
   ∧ length (sent w') ≤ length (sent (llm rt)) + 3 * length emails)%nat.
Proof.
  revert known rt acc. induction emails as [|e l IH]; intros known rt acc Hinit Hw;
    cbv zeta; cbn [processLoop length snd]; [lia|].
  pose proof (processEmail_requests O e known rt Hinit Hw) as (Hi & Hp & Hk).
  destruct (processEmail O e known rt) as [[r known'] rt']. cbn [snd] in *.
  specialize (IH known' rt' (acc ++ [r]) Hi Hp). cbv zeta in IH.
  apply (f_equal length) in Hk. unfold kinds in Hk.
  rewrite length_app, !length_fmap in Hk.
  destruct (classifyAnswerFailed _); cbn [length] in Hk; lia.
Qed.

(** X5.  With an initialized worker, [processEmailsChronologically] on n
    emails posts at most 3 n requests; it posts at least n when it returns
    (the registry loaded), and none when it throws (the load failed). *)
Theorem batch_request_budget (O : Outside) (emails : list EmailData) (rt : Runtime) :
  isInitialized (llm rt) = true → w_worker (llm rt) = true →
  let r := processEmailsChronologically O emails rt in
  let w' := llm r.2 in
  (length (sent w') ≤ length (sent (llm rt)) + 3 * length emails)%nat ∧
  (is_ok r.1 = true → (length (sent (llm rt)) + length emails ≤ length (sent w'))%nat) ∧
  (is_ok r.1 = false → sent w' = sent (llm rt)).
Proof.
  intros Hinit Hw. cbv zeta.
  unfold processEmailsChronologically, runChronologically.
  destruct (getKnownApplications O (manager rt)) as [[known|msg] sm].
  - pose proof (processLoop_requests O (sortByDate O emails) known
                  {| llm := llm rt; manager := sm |} [] Hinit Hw) as H.
    cbv zeta in H. cbn [llm] in H.
    rewrite (Permutation_length (sortByDate_perm O emails)) in H.
    destruct (processLoop O _ _ _ _) as [[results known'] rt']. cbn [fst snd is_ok] in *.
    split; [lia|]. split; [intros _; lia|done].
  - cbn [fst snd is_ok llm]. split; [lia|]. split; [done|done].
Qed.

Lemma batch_request_budget_witness :
  (isInitialized (llm readyRuntime) = true ∧ w_worker (llm readyRuntime) = true) ∧
  let r := processEmailsChronologically acmeWorld acmeEmails readyRuntime in
  let w' := llm r.2 in
  (length (sent w') ≤ length (sent (llm readyRuntime)) + 3 * length acmeEmails)%nat ∧
  (is_ok r.1 = true →
   (length (sent (llm readyRuntime)) + length acmeEmails ≤ length (sent w'))%nat) ∧
  (is_ok r.1 = false → sent w' = sent (llm readyRuntime)).
Proof.
  split; [split; reflexivity|].
  apply (batch_request_budget acmeWorld acmeEmails readyRuntime); reflexivity.
Defined.

(** ** What an outcome can say *)

Lemma determineStatus_ok_valid O w c s status :
  (determineStatus O w c s).1 = Ok status → status ∈ validStatuses.
Proof.
  unfold determineStatus. destruct (negb (isInitialized w)); [done|].
  destruct (awaitPostMessage O w _) as [[v|msg] w']; simpl; intros [= <-].
  - apply validate_status_valid.
  - unfold validStatuses. set_solver.
Qed.

Lemma determineStatusNode_status O state w :
  ∃ s, applicationStatus (determineStatusNode O state w).1 = Some s
       ∧ (s ∈ validStatuses ∨ s = "unknown").
Proof.
  unfold determineStatusNode.
  pose proof (determineStatus_ok_valid O w (statusContent (email state))
                (subject (email state))) as H.
  destruct (determineStatus O w _ _) as [[status|msg] w']; simpl.
  - exists status. split; [done|]. left. by apply H.
  - exists "unknown". by split; [|right].
Qed.

Lemma runStages_status O e known w :
  applicationStatus (runStages O (initialState e known) w).1 = None ∨
  ∃ s, applicationStatus (runStages O (initialState e known) w).1 = Some s
       ∧ (s ∈ validStatuses ∨ s = "unknown").
Proof.
  unfold runStages, classifyEmailNode.
  destruct (classify O w _) as [[[|]|msg] w1]; simpl; [|by left..].
  destruct (extractJobDataNode O _ w1) as [s2 w2]. right.
  apply determineStatusNode_status.
Qed.

Lemma valid_status_truthy s : s ∈ validStatuses → str_or s "unknown" = s.
Proof.
  unfold validStatuses. intros H.
  repeat (apply elem_of_cons in H as [->|H]; [done|]).
  by apply elem_of_nil in H.
Qed.

(** X6.  The application_status of an outcome is always one of the nine
    statuses of the enumeration, or unknown (the email was not job related,
    or the status step threw), or error (a save failed): no other string,
    and in particular no raw worker answer, reaches the caller. *)
Theorem outcome_status_is_closed (O : Outside) (e : EmailData)
    (known : gmap string AppEntry) (rt : Runtime) :
  r_applicationStatus (processEmail O e known rt).1.1
    ∈ validStatuses ++ ["unknown"; "error"].
Proof.
  assert (Herr : "error" ∈ validStatuses ++ ["unknown"; "error"])
    by (apply elem_of_app; right; repeat constructor).
  assert (Hunk : "unknown" ∈ validStatuses ++ ["unknown"; "error"])
    by (apply elem_of_app; right; repeat constructor).
  assert (Hres : ∀ s, r_applicationStatus (resultOf e s) ∈ validStatuses ++ ["unknown"; "error"]
                      ∨ ¬ (applicationStatus s = None ∨
                           ∃ st, applicationStatus s = Some st
                                 ∧ (st ∈ validStatuses ∨ st = "unknown"))).
  { intros s. destruct (applicationStatus s) as [st|] eqn:E.
    - destruct (decide (st ∈ validStatuses ∨ st = "unknown")) as [[Hv| ->]|Hn].
      + left. unfold resultOf. simpl. rewrite E. simpl.
        rewrite valid_status_truthy by done.
        apply (elem_of_app validStatuses ["unknown"; "error"] st). by left.
      + left. unfold resultOf. simpl. rewrite E. done.
      + right. intros [?|(st' & [= <-] & H)]; done.
    - left. unfold resultOf. simpl. rewrite E. done. }
  pose proof (runStages_status O e known (llm rt)) as Hst.
  unfold processEmail, invoke, finalizeResultNode.
  destruct (isInitialized (llm rt)); [|exact Herr].
  destruct (runStages O (initialState e known) (llm rt)) as [s w]. simpl in Hst.
  destruct (updateKnownApplications O (manager rt) _) as [[u|msg] sm]; simpl; [|done].
  destruct (updateKnownApplications O sm (knownApplications s)) as [[u'|msg'] sm'];
    simpl; [|done].
  destruct (Hres s) as [H|H]; [done|]. by destruct H.
Qed.

(** ** Saves and the outcome *)

Lemma updateKnownApplications_db O sm known :
  db (updateKnownApplications O sm known).2 = db sm.
Proof.
  unfold updateKnownApplications. destruct (db sm) eqn:E; simpl; [|done].
  case_bool_decide; [done|]. destruct (txFails O _); [|done].
  by destruct (_ <? _)%nat.
Qed.

Lemma updateKnownApplications_healthy O sm known :
  db sm = true → healthy O → (updateKnownApplications O sm known).1 = Ok ().
Proof.
  intros Hdb Hh. unfold updateKnownApplications. rewrite Hdb. simpl.
  case_bool_decide; [done|]. by rewrite Hh.
Qed.


(** With an open database and no failing transaction, the outcome of an
    email is read off the state the stages left. *)
Lemma processEmail_healthy O e known rt :
  isInitialized (llm rt) = true → db (manager rt) = true → healthy O →
  (processEmail O e known rt).1.1
  = resultOf e (runStages O (initialState e known) (llm rt)).1.
Proof.
  intros Hinit Hdb Hh. unfold processEmail, invoke, finalizeResultNode. rewrite Hinit.
  destruct (runStages O _ (llm rt)) as [s w].
  pose proof (updateKnownApplications_healthy O (manager rt) (knownApplications s) Hdb Hh) as H1.
  pose proof (updateKnownApplications_db O (manager rt) (knownApplications s)) as Hd1.
  destruct (updateKnownApplications O (manager rt) _) as [[u|msg] sm]; simpl in *; [|done].
  rewrite Hdb in Hd1.
  pose proof (updateKnownApplications_healthy O sm (knownApplications s) Hd1 Hh) as H2.
  destruct (updateKnownApplications O sm _) as [[u'|msg'] sm']; simpl in *; done.
Qed.

Lemma classifyEmailNode_frame O state w :
  isInitialized w = true →
  errors (classifyEmailNode O state w).1 = errors state ∧
  jobData (classifyEmailNode O state w).1 = jobData state ∧
  isFirstInstance (classifyEmailNode O state w).1 = isFirstInstance state ∧
  applicationStatus (classifyEmailNode O state w).1 = applicationStatus state.
Proof.
  intros Hinit. unfold classifyEmailNode, classify. rewrite Hinit. simpl.
  by destruct (awaitPostMessage O w _) as [[v|msg] w'].
Qed.

Lemma extractJobDataNode_rejected O state w reason :
  isInitialized w = true → w_worker w = true →
  respond O (length (sent w)) (extractRequest (extractContent (email state)))
    = Rejected reason →
  jobData (extractJobDataNode O state w).1 = VNull ∧
  errors (extractJobDataNode O state w).1 = errors state ∧
  isFirstInstance (extractJobDataNode O state w).1 = isFirstInstance state.
Proof.
  intros Hinit Hw Hrej. unfold extractJobDataNode, extractJobData, awaitPostMessage.
  rewrite Hinit, Hw. simpl. by rewrite Hrej.
Qed.

Lemma checkFirstInstanceNode_frame state :
  errors (checkFirstInstanceNode state) = errors state ∧
  jobData (checkFirstInstanceNode state) = jobData state.
Proof.
  by destruct (checkFirstInstanceNode_cases state) as [->|[(a & _ & ->)|(_ & ->)]].
Qed.

Lemma checkFirstInstanceNode_without_data state :
  truthy (jobData state) = false →
  checkFirstInstanceNode state = with_first state false (knownApplications state).
Proof. intros H. unfold checkFirstInstanceNode. by rewrite H. Qed.

Lemma determineStatusNode_frame O state w :
  isInitialized w = true →
  errors (determineStatusNode O state w).1 = errors state ∧
  jobData (determineStatusNode O state w).1 = jobData state ∧
  isFirstInstance (determineStatusNode O state w).1 = isFirstInstance state ∧
  ∃ status,
    applicationStatus (determineStatusNode O state w).1 = Some status ∧
    status ∈ validStatuses ∧
    knownApplications (determineStatusNode O state w).1
      = recordStatus (jobData state) status (knownApplications state).
Proof.
  intros Hinit. unfold determineStatusNode.
  pose proof (determineStatus_ok_valid O w (statusContent (email state))
                (subject (email state))) as Hv.
  pose proof (determineStatus_initialized O w (statusContent (email state))
                (subject (email state)) Hinit) as Hd.
  destruct (determineStatus O w _ _) as [[status|msg] w']; simpl in *; [|done].
  repeat split; try done. exists status. split; [done|]. split; [by apply Hv|done].
Qed.

(** X7.  When the worker is initialized but extraction fails in the channel
    (the extract request is rejected) after a yes from the classifier, the
    email is degraded silently: job data is null, is_first_instance is
    false, the registry is untouched and no error is recorded, yet the
    status request is still posted and its status is reported. *)
Theorem lost_extraction_is_silent (O : Outside) (state : ApplicationState)
    (w : WebLLMWorker) (reason : string) :
  isInitialized w = true → w_worker w = true →
  classifyAnswerFailed (respond O (length (sent w)) (classifyRequestOf state)) = false →
  respond O (S (length (sent w))) (extractRequest (extractContent (email state)))
    = Rejected reason →
  let state' := (runStages O state w).1 in
  isJobRelated state' = Some true ∧
  jobData state' = VNull ∧
  isFirstInstance state' = Some false ∧
  knownApplications state' = knownApplications state ∧
  errors state' = errors state ∧
  kinds (runStages O state w).2 = kinds w ++ [MClassify; MExtract; MStatus] ∧
  ∃ status, applicationStatus state' = Some status ∧ status ∈ validStatuses.
Proof.
  intros Hinit Hw Hyes Hlost.
  destruct (runStages_requests O state w Hinit Hw) as (_ & _ & _ & Hreq).
  rewrite Hyes in Hreq. destruct Hreq as [Hjob Hsent].
  cbv zeta. split; [done|].
  assert (Hk : kinds (runStages O state w).2 = kinds w ++ [MClassify; MExtract; MStatus])
    by (unfold kinds; by rewrite Hsent, fmap_app).
  clear Hjob Hsent. revert Hk. unfold runStages.
  destruct (classifyEmailNode_posts O state w Hinit Hw) as (Hw1 & He1 & Hj1).
  destruct (classifyEmailNode_frame O state w Hinit) as (Her1 & Hd1 & Hf1 & _).
  pose proof (classifyEmailNode_registry O state w) as Hr1.
  destruct (classifyEmailNode O state w) as [s1 w1]. simpl in *.
  rewrite Hj1, Hyes. simpl. subst w1.
  destruct (extractJobDataNode_rejected O s1 (posted w (classifyRequestOf state)) reason
              eq_refl eq_refl) as (Hd2 & Her2 & Hf2).
  { simpl. rewrite length_app, Nat.add_1_r. simpl. by rewrite He1. }
  pose proof (extractJobDataNode_registry O s1 (posted w (classifyRequestOf state))) as Hr2.
  destruct (extractJobDataNode_posts O s1 (posted w (classifyRequestOf state))
              eq_refl eq_refl) as (Hw2 & _).
  destruct (extractJobDataNode O s1 _) as [s2 w2]. simpl in *. subst w2.
  assert (Hnull : truthy (jobData s2) = false) by by rewrite Hd2.
  rewrite (checkFirstInstanceNode_without_data s2 Hnull).
  intros Hk.
  destruct (determineStatusNode_frame O (with_first s2 false (knownApplications s2))
              (posted (posted w (classifyRequestOf state))
                 (extractRequest (extractContent (email s1)))) eq_refl)
    as (Her3 & Hd3 & Hf3 & status & Hst & Hval & Hreg).
  rewrite Hd3, Hf3, Her3, Hreg. simpl. rewrite Hd2. unfold recordStatus. simpl.
  split; [done|]. split; [done|]. split; [congruence|]. split; [congruence|].
  split; [done|]. by exists status.
Qed.

Lemma lost_extraction_is_silent_witness :
  (isInitialized readyWorker = true ∧ w_worker readyWorker = true ∧
   classifyAnswerFailed
     (respond lostExtractionWorld (length (sent readyWorker))
        (classifyRequestOf (initialState (mail "m1" "2024-01-01") ∅))) = false ∧
   respond lostExtractionWorld (S (length (sent readyWorker)))
     (extractRequest (extractContent (email (initialState (mail "m1" "2024-01-01") ∅))))
     = Rejected "Request timed out") ∧
  let state := initialState (mail "m1" "2024-01-01") ∅ in
  let state' := (runStages lostExtractionWorld state readyWorker).1 in
  isJobRelated state' = Some true ∧
  jobData state' = VNull ∧
  isFirstInstance state' = Some false ∧
  knownApplications state' = knownApplications state ∧
  errors state' = errors state ∧
  kinds (runStages lostExtractionWorld state readyWorker).2
    = kinds readyWorker ++ [MClassify; MExtract; MStatus] ∧
  ∃ status, applicationStatus state' = Some status ∧ status ∈ validStatuses.
Proof.
  split; [repeat split; reflexivity|].
  apply (lost_extraction_is_silent lostExtractionWorld
           (initialState (mail "m1" "2024-01-01") ∅) readyWorker "Request timed out");
    reflexivity.
Defined.

(** X8.  An email the classifier does not answer yes to (a no, any other
    value, or a failed request), with the database open and no failing
    transaction: its outcome is exactly isJobRelated false, job data null,
    is_first_instance false, status unknown and no errors, and the registry
    is the one the email found. *)
Theorem unrelated_email_outcome (O : Outside) (e : EmailData)
    (known : gmap string AppEntry) (rt : Runtime) :
  isInitialized (llm rt) = true →
  classifyAnswerFailed
    (awaitPostMessage O (llm rt) (classifyRequest (classifyContent e))).1 = true →
  db (manager rt) = true → healthy O →
  (processEmail O e known rt).1 =
  ({| emailId := id e; r_isJobRelated := false; r_jobData := VNull;
      r_isFirstInstance := false; r_applicationStatus := "unknown";
      processingErrors := [] |}, known).
Proof.
  intros Hinit Hfail Hdb Hh.
  pose proof (processEmail_healthy O e known rt Hinit Hdb Hh) as Hres.
  destruct (processEmail_after_stages O e known rt) as [Hreg _].
  destruct (processEmail O e known rt) as [[r known'] rt']. simpl in *.
  subst r known'. f_equal.
  all: unfold runStages, classifyEmailNode, classify, classifyAnswerFailed in *;
    rewrite Hinit; simpl.
  all: destruct (awaitPostMessage O (llm rt) _) as [[v|msg] w']; simpl in *; [|done].
  all: apply negb_true_iff in Hfail; by rewrite Hfail.
Qed.

Lemma unrelated_email_outcome_witness :
  (isInitialized (llm readyRuntime) = true ∧
   classifyAnswerFailed
     (awaitPostMessage silentWorld (llm readyRuntime)
        (classifyRequest (classifyContent (mail "m1" "2024-01-01")))).1 = true ∧
   db (manager readyRuntime) = true ∧ healthy silentWorld) ∧
  (processEmail silentWorld (mail "m1" "2024-01-01") ∅ readyRuntime).1 =
  ({| emailId := id (mail "m1" "2024-01-01"); r_isJobRelated := false; r_jobData := VNull;
      r_isFirstInstance := false; r_applicationStatus := "unknown";
      processingErrors := [] |}, ∅).
Proof.
  assert (Hh : healthy silentWorld) by (intros n; reflexivity).
  split; [repeat split; (reflexivity || exact Hh)|].
  apply (unrelated_email_outcome silentWorld (mail "m1" "2024-01-01") ∅ readyRuntime
           eq_refl eq_refl eq_refl Hh).
Defined.



(** The failing put of a registry of one entry is the last one to complete:
    the save of Finalize resolves although its transaction stored nothing,
    the outcome is the ordinary one, and the entry reaches the store with
    the save that follows. *)
Example failing_only_put_goes_unnoticed :
  size (knownApplications
          (runStages failingSaveWorld (initialState (mail "m1" "2024-01-01") ∅)
             (llm loadedRuntime)).1) = 1%nat ∧
  r_applicationStatus
    (processEmail failingSaveWorld (mail "m1" "2024-01-01") ∅ loadedRuntime).1.1 = "applied" ∧
  processingErrors
    (processEmail failingSaveWorld (mail "m1" "2024-01-01") ∅ loadedRuntime).1.1 = [] ∧
  txCount (manager (processEmail failingSaveWorld (mail "m1" "2024-01-01") ∅ loadedRuntime).2)
    = 3%nat ∧
  email_count <$>
    store (manager (processEmail failingSaveWorld (mail "m1" "2024-01-01") ∅ loadedRuntime).2)
      !! "Acme_Engineer" = Some 1.
Proof. repeat split; vm_compute; reflexivity. Qed.

(** ** A processor whose graph was never built *)

Lemma processEmail_graphless O e known rt :
  isInitialized (llm rt) = false →
  processEmail O e known rt = (faultResult e (nullInvokeMessage O), known, rt).
Proof. intros Hinit. unfold processEmail, invoke. by rewrite Hinit. Qed.

Lemma processLoop_graphless O emails known rt acc :
  isInitialized (llm rt) = false →
  processLoop O emails known rt acc
  = (acc ++ ((λ e, faultResult e (nullInvokeMessage O)) <$> emails), known, rt).
Proof.
  intros Hinit. revert acc. induction emails as [|e l IH]; intros acc; simpl.
  - by rewrite app_nil_r.
  - rewrite (processEmail_graphless O e known rt Hinit), IH, <- app_assoc. done.
Qed.

(** X10.  While the worker has not been initialized, the processor has no
    graph: once the registry has loaded, every email of a batch gets the
    error outcome (not job related, no job data, status error, the message
    of the TypeError as only error), in the order of the date sort; nothing
    is posted to the worker, the registry stays as loaded, and no
    transaction besides the load is opened. *)
Theorem uninitialized_worker_fails_every_email (O : Outside) (emails : list EmailData)
    (rt : Runtime) :
  isInitialized (llm rt) = false → db (manager rt) = true →
  txFails O (txCount (manager rt)) = false →
  runChronologically O emails rt
  = (Ok ((λ e, faultResult e (nullInvokeMessage O)) <$> sortByDate O emails,
         store (manager rt)),
     {| llm := llm rt;
        manager := {| db := true; store := store (manager rt);
                      txCount := S (txCount (manager rt)) |} |}).
Proof.
  intros Hinit Hdb Htx. unfold runChronologically, getKnownApplications.
  rewrite Hdb, Htx. simpl.
  by rewrite processLoop_graphless.
Qed.

Lemma uninitialized_worker_fails_every_email_witness :
  (isInitialized (llm coldRuntime) = false ∧ db (manager coldRuntime) = true ∧
   txFails acmeWorld (txCount (manager coldRuntime)) = false) ∧
  runChronologically acmeWorld acmeEmails coldRuntime
  = (Ok ((λ e, faultResult e (nullInvokeMessage acmeWorld)) <$> sortByDate acmeWorld acmeEmails,
         store (manager coldRuntime)),
     {| llm := llm coldRuntime;
        manager := {| db := true; store := store (manager coldRuntime);
                      txCount := S (txCount (manager coldRuntime)) |} |}).
Proof.
  split; [split; [reflexivity|split; reflexivity]|].
  apply (uninitialized_worker_fails_every_email acmeWorld acmeEmails coldRuntime);
    reflexivity.
Defined.

(** ** A record without a company name *)

(** X11.  CheckFirstInstance skips a record without company name, but the
    status step still builds a key from it (undefined_, null_ or _ followed
    by the title) and, when the registry has an entry under that key,
    appends the determined status to that entry and sets its current_status,
    without counting the email. *)
Theorem nameless_record_still_appends_status (O : Outside) (state : ApplicationState)
    (w : WebLLMWorker) (o : JobData) (a : AppEntry) :
  isInitialized w = true →
  jobData state = VObj o → field_truthy (company_name o) = false →
  knownApplications state !! appKey o = Some a →
  let state' := (determineStatusNode O (checkFirstInstanceNode state) w).1 in
  isFirstInstance state' = Some false ∧
  ∃ status a',
    applicationStatus state' = Some status ∧
    knownApplications state' !! appKey o = Some a' ∧
    status_history a' = status_history a ++ [status] ∧
    current_status a' = Some status ∧
    email_count a' = email_count a.
Proof.
  intros Hinit Hd Hc Ha.
  assert (Hskip : checkFirstInstanceNode state
                  = with_first state false (knownApplications state)).
  { unfold checkFirstInstanceNode. rewrite Hd. simpl. by rewrite Hc. }
  cbv zeta. rewrite Hskip.
  destruct (determineStatusNode_frame O (with_first state false (knownApplications state))
              w Hinit) as (_ & _ & Hf & status & Hst & _ & Hreg).
  rewrite Hf, Hreg. simpl. split; [done|].
  exists status, (pushStatus status a). split; [done|].
  rewrite recordStatus_lookup, Hd. simpl.
  rewrite bool_decide_eq_true_2 by done. by rewrite Ha.
Qed.

Lemma nameless_record_still_appends_status_witness :
  (isInitialized readyWorker = true ∧
   jobData (extractedState (mail "m1" "2024-01-01") (VObj namelessJob) undefinedEntry)
     = VObj namelessJob ∧
   field_truthy (company_name namelessJob) = false ∧
   knownApplications
     (extractedState (mail "m1" "2024-01-01") (VObj namelessJob) undefinedEntry)
     !! appKey namelessJob
     = Some (newEntry (job "undefined" "Engineer") (mail "m0" "2023-12-01"))) ∧
  let state := extractedState (mail "m1" "2024-01-01") (VObj namelessJob) undefinedEntry in
  let state' := (determineStatusNode acmeWorld (checkFirstInstanceNode state) readyWorker).1 in
  isFirstInstance state' = Some false ∧
  ∃ status a',
    applicationStatus state' = Some status ∧
    knownApplications state' !! appKey namelessJob = Some a' ∧
    status_history a' =
      status_history (newEntry (job "undefined" "Engineer") (mail "m0" "2023-12-01"))
      ++ [status] ∧
    current_status a' = Some status ∧
    email_count a' = email_count (newEntry (job "undefined" "Engineer") (mail "m0" "2023-12-01")).
Proof.
  split; [repeat split; reflexivity|].
  apply (nameless_record_still_appends_status acmeWorld
           (extractedState (mail "m1" "2024-01-01") (VObj namelessJob) undefinedEntry)
           readyWorker namelessJob
           (newEntry (job "undefined" "Engineer") (mail "m0" "2023-12-01")));
    reflexivity.
Defined.

(** ** The persistence collaborator *)



Lemma applicationRecord_complete now a :
  str_truthy now = true → complete (applicationRecord now a).
Proof.
  intros Hnow. unfold complete, applicationRecord, field_or, str_or, opt_str_or, str_or, num_or.
  simpl. repeat split.
  - destruct (company_name (a_job a)) as [| |c]; [by eexists..|].
    destruct (str_truthy c) eqn:E; by eexists.
  - destruct (job_title (a_job a)) as [| |c]; [by eexists..|].
    destruct (str_truthy c) eqn:E; by eexists.
  - by eexists.
  - by eexists.
  - by eexists.
  - by eexists.
  - by eexists.
  - destruct (str_truthy (first_seen a)) eqn:E; done.
  - destruct (current_status a) as [s|]; [|by eexists].
    destruct (str_truthy s) eqn:E; by eexists.
  - destruct (email_count a =? 0) eqn:E; [done|]. by apply Z.eqb_neq in E.
  - destruct (last_updated a) as [s|]; [|by eexists].
    destruct (str_truthy s) eqn:E; by eexists.
Qed.

Lemma applicationRecord_of_complete now a :
  complete a → applicationRecord now a = a.
Proof.
  destruct a as [[c t d m j l r] f h s n u].
  intros ((c' & Hc & Hct) & (t' & Ht & Htt) & (d' & Hd) & (m' & Hm) & (j' & Hj) &
          (l' & Hl) & (r' & Hr) & Hf & (s' & Hs & Hst) & Hn & (u' & Hu & Hut)).
  simpl in *. subst. unfold applicationRecord, field_or, str_or, opt_str_or, str_or, num_or.
  simpl. rewrite Hct, Htt, Hf, Hst, Hut.
  apply Z.eqb_neq in Hn. rewrite Hn.
  f_equal. f_equal; f_equal; by match goal with |- context [str_truthy ?x] =>
    destruct (str_truthy x) eqn:E; [|apply negb_false_iff, String.eqb_eq in E; subst] end.
Qed.

(** X13.  Writing back what was loaded changes nothing: when every record of
    the store is complete (as [store.put] writes them), loading the map and
    passing it to [updateKnownApplications] leaves the store as it was,
    whether the write transaction succeeds or fails. *)
Theorem saving_the_loaded_map_is_a_no_op (O : Outside) (sm : ApplicationStateManager) :
  db sm = true → txFails O (txCount sm) = false →
  map_Forall (λ _ a, complete a) (store sm) →
  ∃ m, (getKnownApplications O sm).1 = Ok m ∧
    store (updateKnownApplications O (getKnownApplications O sm).2 m).2 = store sm.
Proof.
  intros Hdb Htx Hall. unfold getKnownApplications. rewrite Hdb, Htx. simpl.
  exists (store sm). split; [done|]. unfold updateKnownApplications. simpl.
  case_bool_decide; simpl; [done|].
  destruct (txFails O (S (txCount sm))); simpl; [by destruct (_ <? _)%nat|].
  apply map_eq. intros k. rewrite lookup_union, lookup_fmap.
  destruct (store sm !! k) as [a|] eqn:E; simpl; [|done].
  by rewrite (applicationRecord_of_complete _ a (Hall k a E)).
Qed.

Lemma updateKnownApplications_complete O sm known :
  clockReads O → map_Forall (λ _ a, complete a) (store sm) →
  map_Forall (λ _ a, complete a) (store (updateKnownApplications O sm known).2).
Proof.
  intros Hclock Hall. unfold updateKnownApplications.
  destruct (db sm); simpl; [|done]. case_bool_decide; simpl; [done|].
  destruct (txFails O _); simpl; [by destruct (_ <? _)%nat|].
  intros k a Hk. apply lookup_union_Some_raw in Hk as [Hk|[_ Hk]]; [|by apply (Hall k)].
  rewrite lookup_fmap in Hk. destruct (known !! k) as [a0|]; simpl in Hk; [|done].
  injection Hk as <-. by apply applicationRecord_complete.
Qed.

Lemma acmeWorld_clockReads : clockReads acmeWorld.
Proof. intros n. reflexivity. Qed.

Lemma savedAcmeManager_complete :
  map_Forall (λ _ a, complete a) (store savedAcmeManager).
Proof.
  apply updateKnownApplications_complete; [apply acmeWorld_clockReads|].
  intros k a Hk. cbn in Hk. by rewrite lookup_empty in Hk.
Qed.

Lemma saving_the_loaded_map_is_a_no_op_witness :
  (db savedAcmeManager = true ∧ txFails acmeWorld (txCount savedAcmeManager) = false ∧
   map_Forall (λ _ a, complete a) (store savedAcmeManager)) ∧
  ∃ m, (getKnownApplications acmeWorld savedAcmeManager).1 = Ok m ∧
    store (updateKnownApplications acmeWorld
             (getKnownApplications acmeWorld savedAcmeManager).2 m).2
      = store savedAcmeManager.
Proof.
  split; [split; [reflexivity|split; [reflexivity|exact savedAcmeManager_complete]]|].
  apply (saving_the_loaded_map_is_a_no_op acmeWorld savedAcmeManager eq_refl eq_refl
           savedAcmeManager_complete).
Defined.

Lemma processEmail_complete O e known rt :
  clockReads O → map_Forall (λ _ a, complete a) (store (manager rt)) →
  map_Forall (λ _ a, complete a) (store (manager (processEmail O e known rt).2)).
Proof.
  intros Hclock Hall. unfold processEmail, invoke, finalizeResultNode.
  destruct (isInitialized (llm rt)); [|done].
  destruct (runStages O _ (llm rt)) as [s w].
  pose proof (updateKnownApplications_complete O (manager rt) (knownApplications s)
                Hclock Hall) as H1.
  destruct (updateKnownApplications O (manager rt) _) as [[u|msg] sm]; simpl in *; [|done].
  pose proof (updateKnownApplications_complete O sm (knownApplications s) Hclock H1) as H2.
  by destruct (updateKnownApplications O sm _) as [[u'|msg'] sm'].
Qed.

Lemma processLoop_complete O emails known rt acc :
  clockReads O → map_Forall (λ _ a, complete a) (store (manager rt)) →
  map_Forall (λ _ a, complete a) (store (manager (processLoop O emails known rt acc).2)).
Proof.
  intros Hclock. revert known rt acc.
  induction emails as [|e l IH]; intros known rt acc Hall; simpl; [done|].
  pose proof (processEmail_complete O e known rt Hclock Hall) as He.
  destruct (processEmail O e known rt) as [[r known'] rt']. by apply IH.
Qed.

(** X14.  The store only ever holds complete records: if it does before a
    batch (an empty store does), it does after the batch, whatever the
    worker answers and whichever transactions fail, provided the clock
    string is never empty.  A complete record has a non-empty company name
    and title (Unknown when the extraction gave none), a current status
    (applied when none was determined), a non-zero email count, first_seen
    and last_updated. *)
Theorem store_records_stay_complete (O : Outside) (emails : list EmailData) (rt : Runtime) :
  clockReads O →
  map_Forall (λ _ a, complete a) (store (manager rt)) →
  map_Forall (λ _ a, complete a)
    (store (manager (runChronologically O emails rt).2)).
Proof.
  intros Hclock Hall. unfold runChronologically, getKnownApplications.
  destruct (db (manager rt)); simpl; [|done].
  destruct (txFails O _); simpl; [done|].
  pose proof (processLoop_complete O (sortByDate O emails) (store (manager rt))
    {| llm := llm rt;
       manager := {| db := true; store := store (manager rt);
                     txCount := S (txCount (manager rt)) |} |} [] Hclock Hall) as H.
  by destruct (processLoop O _ _ _ _) as [[results known'] rt'].
Qed.

Lemma store_records_stay_complete_witness :
  (clockReads acmeWorld ∧
   map_Forall (λ _ a, complete a) (store (manager readyRuntime))) ∧
  map_Forall (λ _ a, complete a)
    (store (manager (runChronologically acmeWorld acmeEmails readyRuntime).2)).
Proof.
  assert (H0 : map_Forall (λ _ a, complete a) (store (manager readyRuntime))).
  { intros k a Hk. cbn in Hk. by rewrite lookup_empty in Hk. }
  split; [split; [exact acmeWorld_clockReads|exact H0]|].
  apply (store_records_stay_complete acmeWorld acmeEmails readyRuntime
           acmeWorld_clockReads H0).
Defined.

Example saved_acme_record :
  map_to_list (store (manager (runChronologically acmeWorld acmeEmails readyRuntime).2)) =
  [("Acme_Engineer",
    {| a_job := {| company_name := FStr "Acme"; job_title := FStr "Engineer";
                   application_date := FStr ""; contact_email := FStr "";
                   job_id := FStr ""; location := FStr ""; salary_range := FStr "" |};
       first_seen := "2024-01-01";
       status_history := ["applied"; "applied"; "interview_scheduled"];
       current_status := Some "interview_scheduled";
       email_count := 2;
       last_updated := Some "2024-02-01T00:00:00.000Z" |})].
Proof. vm_compute. reflexivity. Qed.

(** ** The orchestrator and the database *)

Lemma processEmailsChronologically_closed O emails rt :
  db (manager rt) = false →
  processEmailsChronologically O emails rt = (Throw ensureDB_message, rt).
Proof.
  intros Hdb. unfold processEmailsChronologically, runChronologically, getKnownApplications.
  rewrite Hdb. simpl. by destruct rt.
Qed.

Lemma afterBatches_closed O emails total ks o :
  db (manager (runtime o)) = false →
  let o' := afterBatches O emails total ks o in
  runtime o' = runtime o ∧ results o' = results o ∧
  p_results (progress o') = p_results (progress o) ∧
  p_errors (progress o') = p_errors (progress o) ++ (closedChunkError <$> ks).
Proof.
  revert o. induction ks as [|k ks IH]; intros o Hdb; simpl.
  - by rewrite app_nil_r.
  - assert (Hbody : batchBody O emails total k o =
      {| runtime := runtime o;
         progress :=
           {| totalEmails := totalEmails (progress o);
              processedEmails := processedEmails (progress o);
              currentBatch := S k; totalBatches := totalBatches (progress o);
              currentStatus := "AI processing batch " +:+ pretty (S k) +:+ "/"
                               +:+ pretty total +:+ "...";
              p_results := p_results (progress o);
              p_errors := p_errors (progress o) ++ [closedChunkError k] |};
         results := results o |}).
    { unfold batchBody. by rewrite processEmailsChronologically_closed. }
    unfold afterBatches in *. cbn [foldl].
    destruct (IH (batchBody O emails total k o)) as (H1 & H2 & H3 & H4);
      [by rewrite Hbody|].
    rewrite H1, H2, H3, H4, Hbody. simpl. by rewrite <- app_assoc.
Qed.

(** X15.  With the database closed, a run that is not cancelled returns an
    empty outcome list: every chunk fails at the registry load, nothing is
    posted to the worker, no email gets an outcome, and the aggregate error
    list gains one line per chunk. *)
Theorem closed_database_fails_every_chunk (O : Outside) (emails : list EmailData)
    (rt : Runtime) (p : ProcessingProgress) :
  db (manager rt) = false → (∀ k, aborted O k = false) →
  ∃ o, processEmailsWithAI O emails (Some rt) p = (Ok [], Some o) ∧
    runtime o = rt ∧
    p_results (progress o) = p_results p ∧
    p_errors (progress o)
      = p_errors p ++
        (closedChunkError <$> seq 0 (ceilDiv (length emails) WEBLLM_BATCH_SIZE)).
Proof.
  intros Hdb Hnever. rewrite processEmailsWithAI_loop.
  rewrite batchLoop_uncancelled by (apply Forall_forall; auto).
  destruct (afterBatches_closed O emails (ceilDiv (length emails) WEBLLM_BATCH_SIZE)
              (seq 0 (ceilDiv (length emails) WEBLLM_BATCH_SIZE))
              (loopEntry emails rt p) Hdb) as (H1 & H2 & H3 & H4).
  eexists. rewrite H2. split; [done|]. by rewrite H1, H3, H4.
Qed.

Lemma closed_database_fails_every_chunk_witness :
  (db (manager closedRuntime) = false ∧ (∀ k, aborted acmeWorld k = false)) ∧
  ∃ o, processEmailsWithAI acmeWorld sixEmails (Some closedRuntime) freshProgress
         = (Ok [], Some o) ∧
    runtime o = closedRuntime ∧
    p_results (progress o) = p_results freshProgress ∧
    p_errors (progress o)
      = p_errors freshProgress ++
        (closedChunkError <$> seq 0 (ceilDiv (length sixEmails) WEBLLM_BATCH_SIZE)).
Proof.
  split; [split; [reflexivity|intros k; reflexivity]|].
  apply (closed_database_fails_every_chunk acmeWorld sixEmails closedRuntime freshProgress).
  - reflexivity.
  - intros k. reflexivity.
Defined.






(** ** More on the RPC channel *)

Section ChannelMore.
Import Channel.

Lemma rejectAllPending_effect msg st :
  Consistent st →
  pendingRequests (rejectAllPending msg st) = ∅ ∧
  (∀ i p, pendingRequests st !! i = Some p →
     settled_times p (rejectAllPending msg st) = 1%nat ∧
     (p, RejectError msg) ∈ settleLog (rejectAllPending msg st) ∧
     timers (rejectAllPending msg st) !! p = None) ∧
  (∀ p, (∀ i, pendingRequests st !! i ≠ Some p) →
     settled_times p (rejectAllPending msg st) = settled_times p st ∧
     timers (rejectAllPending msg st) !! p = timers st !! p).
Proof.
  intros Hc. split; [done|]. split.
  - intros i p Hi.
    pose proof (cons_pending st Hc _ _ Hi) as Hp.
    pose proof (cons_armed st Hc _ _ Hp) as [_ Hz].
    unfold settled_times, rejectAllPending in *. simpl. split; [|split].
    + rewrite settle_count_app, Hz, (settle_count_map_one p msg _ i); [done|done|].
      intros j Hj. apply (cons_pending st Hc) in Hj. congruence.
    + apply elem_of_app. right. apply list_elem_of_fmap.
      exists (i, p). split; [done|]. by apply elem_of_map_to_list.
    + rewrite cleared_timers_lookup. rewrite decide_True; [done|].
      apply in_pending_handles. by exists i.
  - intros p Hnone. unfold settled_times, rejectAllPending. simpl. split.
    + rewrite settle_count_app, settle_count_map_none; [lia|done].
    + rewrite cleared_timers_lookup. rewrite decide_False; [done|].
      intros Hin. apply in_pending_handles in Hin as [i Hi]. by apply (Hnone i).
Qed.

(** A channel without worker has nothing pending. *)
Lemma no_worker_nothing_pending evs :
  worker (run evs) = false → pendingRequests (run evs) = ∅.
Proof.
  unfold run.
  assert (H0 : worker initial = false → pendingRequests initial = ∅) by done.
  revert H0. generalize initial.
  induction evs as [|ev evs IH]; intros st Hst; simpl; [done|].
  apply IH. destruct ev; simpl.
  - done.
  - unfold postMessage. destruct (worker st) eqn:E; simpl; [done|]. auto.
  - unfold handleWorkerMessage. destruct (r_progress r) as [[t pc]|]; simpl; [done|].
    destruct (pendingRequests st !! r_id r) as [p|] eqn:Ei; simpl; [|done].
    intros Hw.
    assert (Hw' : worker st = false).
    { destruct (r_error r) as [e|]; [destruct (str_truthy e)|]; exact Hw. }
    rewrite (Hst Hw') in Ei. by rewrite lookup_empty in Ei.
  - unfold timeoutFires. destruct (timers st !! p) as [i|]; simpl; [|done].
    intros Hw. rewrite (Hst Hw). apply delete_empty.
  - done.
  - unfold terminate. destruct (worker st) eqn:E; simpl; [done|]. auto.
Qed.

End ChannelMore.

(** X17.  A worker error rejects everything that is pending: after
    [worker.onerror], in any state the channel can reach, the pending table
    is empty, every promise that had an entry is settled exactly once, by a
    rejection carrying the worker's error, and its timer is cleared; a
    promise without entry is not touched. *)
Theorem worker_error_rejects_all_pending (evs : list Channel.Event) (msg : string) :
  let st := Channel.run evs in
  let st' := Channel.step st (Channel.EWorkerError msg) in
  Channel.pendingRequests st' = ∅ ∧
  (∀ i p, Channel.pendingRequests st !! i = Some p →
     Channel.settled_times p st = 0%nat ∧
     Channel.settled_times p st' = 1%nat ∧
     (p, Channel.RejectError ("Worker error: " +:+ msg)) ∈ Channel.settleLog st' ∧
     Channel.timers st' !! p = None) ∧
  (∀ p, (∀ i, Channel.pendingRequests st !! i ≠ Some p) →
     Channel.settled_times p st' = Channel.settled_times p st ∧
     Channel.timers st' !! p = Channel.timers st !! p).
Proof.
  intros st st'. pose proof (Consistent_run evs) as Hc. fold st in Hc.
  destruct (rejectAllPending_effect ("Worker error: " +:+ msg)
              (Channel.log ("WebLLM Worker error: " +:+ msg) st)
              (Consistent_log _ _ Hc)) as (H1 & H2 & H3).
  split; [exact H1|]. split.
  - intros i p Hi. split; [|by apply (H2 i p)].
    apply (Channel.cons_pending st Hc) in Hi.
    apply (Channel.cons_armed st Hc) in Hi as [_ Hz]. exact Hz.
  - intros p Hp. by apply (H3 p).
Qed.

(** X18.  A timeout that comes late does nothing: once a promise is settled
    (by an answer, a worker error or its own timeout), the timer callback of
    that promise leaves the whole channel state as it is. *)
Theorem late_timeout_is_ignored (evs : list Channel.Event) (p : nat) :
  Channel.settled_times p (Channel.run evs) = 1%nat →
  Channel.step (Channel.run evs) (Channel.ETimer p) = Channel.run evs.
Proof.
  intros Hs. pose proof (Consistent_run evs) as Hc. simpl. unfold Channel.timeoutFires.
  destruct (Channel.timers (Channel.run evs) !! p) as [i|] eqn:E; [|done].
  apply (Channel.cons_armed _ Hc) in E as [_ Hz]. congruence.
Qed.

Lemma late_timeout_is_ignored_witness :
  Channel.settled_times 1 (Channel.run collidingEvents) = 1%nat ∧
  Channel.step (Channel.run collidingEvents) (Channel.ETimer 1)
    = Channel.run collidingEvents.
Proof.
  split; [reflexivity|].
  apply (late_timeout_is_ignored collidingEvents 1). reflexivity.
Defined.

(** X19.  After [terminate] the channel has no worker and nothing pending,
    and a request posted then is rejected at once with Worker not
    initialized: it is not sent, gets no table entry and no timer. *)
Theorem post_after_terminate_is_rejected (evs : list Channel.Event) (i : string) :
  let st := Channel.step (Channel.run evs) Channel.ETerminate in
  let st' := Channel.step st (Channel.EPost i) in
  Channel.worker st = false ∧
  Channel.pendingRequests st = ∅ ∧
  Channel.settleLog st'
    = Channel.settleLog st
      ++ [(Channel.nextPromise st, Channel.RejectError "Worker not initialized")] ∧
  Channel.pendingRequests st' = ∅ ∧
  Channel.timers st' = Channel.timers st ∧
  Channel.outbox st' = Channel.outbox st.
Proof.
  intros st st'.
  assert (Hw : Channel.worker st = false).
  { subst st. simpl. unfold Channel.terminate.
    by destruct (Channel.worker (Channel.run evs)) eqn:E. }
  assert (Hp : Channel.pendingRequests st = ∅).
  { assert (Hrun : st = Channel.run (evs ++ [Channel.ETerminate]))
      by (unfold st, Channel.run; by rewrite foldl_app).
    rewrite Hrun in Hw |- *. by apply no_worker_nothing_pending. }
  split; [done|]. split; [done|].
  subst st'. simpl. unfold Channel.postMessage. rewrite Hw. simpl. done.
Qed.

(** ** Classify through the worker code *)

(** X20.  When the answer to the classify request is the one the worker
    code computes from the engine's reply, [classify] returns true exactly
    when the upper-cased reply contains YES somewhere: the comparison with
    the string YES in the adapter never decides, and a reply such as
    "No, see yesterday's mail" counts as a yes. *)
Theorem classify_through_worker (O : Outside) (w : WebLLMWorker)
    (toUpperCase : string → string) (emailContent reply : string) :
  isInitialized w = true → w_worker w = true →
  respond O (length (sent w)) (classifyRequest emailContent)
    = Resolved (workerClassify toUpperCase reply) →
  (classify O w emailContent).1 = Ok (includes "YES" (toUpperCase reply)).
Proof.
  intros Hinit Hw Hans. unfold classify, awaitPostMessage. rewrite Hinit, Hw. simpl.
  rewrite Hans. unfold workerClassify. simpl.
  by destruct (includes "YES" (toUpperCase reply)).
Qed.

Lemma classify_through_worker_witness :
  (isInitialized readyWorker = true ∧ w_worker readyWorker = true ∧
   respond (quietOutside
              (λ _ _, Resolved (workerClassify upperString "No, see yesterday's mail"))
              (λ _, false))
     (length (sent readyWorker)) (classifyRequest "Subject: Newsletter")
   = Resolved (workerClassify upperString "No, see yesterday's mail")) ∧
  (classify (quietOutside
               (λ _ _, Resolved (workerClassify upperString "No, see yesterday's mail"))
               (λ _, false))
     readyWorker "Subject: Newsletter").1
  = Ok (includes "YES" (upperString "No, see yesterday's mail")).
Proof.
  split; [repeat split; reflexivity|].
  apply (classify_through_worker
           (quietOutside
              (λ _ _, Resolved (workerClassify upperString "No, see yesterday's mail"))
              (λ _, false))
           readyWorker upperString "Subject: Newsletter" "No, see yesterday's mail");
    reflexivity.
Defined.

Example yesterday_is_a_yes :
  includes "YES" (upperString "No, see yesterday's mail") = true.
Proof. reflexivity. Qed.

(** ** Header parsing *)

Lemma readHeader_fields low result h :
  h_subject (readHeader low result h)
    = (if String.eqb (low h.1) "subject" then h.2 else h_subject result) ∧
  h_from (readHeader low result h)
    = (if String.eqb (low h.1) "from" then h.2 else h_from result) ∧
  h_to (readHeader low result h)
    = (if String.eqb (low h.1) "to" then h.2 else h_to result) ∧
  h_date (readHeader low result h)
    = (if String.eqb (low h.1) "date" then h.2 else h_date result).
Proof.
  unfold readHeader.
  destruct (String.eqb (low h.1) "subject") eqn:E1.
  { apply String.eqb_eq in E1. rewrite E1. done. }
  destruct (String.eqb (low h.1) "from") eqn:E2.
  { apply String.eqb_eq in E2. rewrite E2. done. }
  destruct (String.eqb (low h.1) "to") eqn:E3.
  { apply String.eqb_eq in E3. rewrite E3. done. }
  by destruct (String.eqb (low h.1) "date").
Qed.

Lemma lastValue_snoc low name hs h :
  lastValue low name (hs ++ [h])
  = if String.eqb (low h.1) name then h.2 else lastValue low name hs.
Proof.
  induction hs as [|h0 hs IH]; simpl.
  - by destruct (String.eqb (low h.1) name).
  - rewrite existsb_app. simpl. rewrite orb_false_r, IH.
    destruct (String.eqb (low h.1) name) eqn:E; [by rewrite orb_true_r|].
    rewrite orb_false_r. done.
Qed.

(** X21.  [parseEmailHeaders] reads each of subject, from, to and date from
    the last header carrying that name, names compared after lower-casing;
    a field whose header is absent is the empty string, and headers with
    other names change nothing. *)
Theorem parseEmailHeaders_last_wins (toLowerCase : string → string)
    (headers : list (string * string)) :
  parseEmailHeaders toLowerCase headers =
  {| h_subject := lastValue toLowerCase "subject" headers;
     h_from := lastValue toLowerCase "from" headers;
     h_to := lastValue toLowerCase "to" headers;
     h_date := lastValue toLowerCase "date" headers |}.
Proof.
  unfold parseEmailHeaders.
  induction headers as [|h hs IH] using rev_ind; [done|].
  rewrite foldl_app. cbn [foldl]. rewrite IH, !lastValue_snoc.
  destruct (readHeader_fields toLowerCase
    {| h_subject := lastValue toLowerCase "subject" hs;
       h_from := lastValue toLowerCase "from" hs;
       h_to := lastValue toLowerCase "to" hs;
       h_date := lastValue toLowerCase "date" hs |} h) as (H1 & H2 & H3 & H4).
  destruct (readHeader toLowerCase _ h) as [s f t d]. simpl in *. congruence.
Qed.

Example duplicate_date_header :
  h_date (parseEmailHeaders lowerString
            [("Date", "Mon, 1 Jan 2024"); ("Subject", "Hi"); ("DATE", "Tue, 2 Jan 2024");
             ("X-Mailer", "none")])
  = "Tue, 2 Jan 2024".
Proof. reflexivity. Qed.
